(** * Registry error codes and the error envelope (errors.go)

    A shallow embedding of package [registry]'s error layer: the
    [ErrorCode] enumeration with its two lookup tables and the reverse
    table built by [init], the [Error] record, the [Errors] envelope with
    [Push], [PushErr], [Error], [Clear] and [Len], and the backend error
    types that implement Go's [error] interface. *)

From Stdlib Require Import ZArith String Ascii List.
From stdpp Require Import gmap strings list fin_maps pretty.

Local Open Scope Z_scope.
Local Open Scope string_scope.

(** ** ErrorCode *)

(** [type ErrorCode int].  No arithmetic is ever done on a code, so the
    machine width of [int] plays no role and the integers stand for it. *)
Abbreviation ErrorCode := Z (only parsing).

(** The [iota] block. *)
Definition ErrorCodeUnknown : Z := 0.
Definition ErrorCodeInvalidDigest : Z := 1.
Definition ErrorCodeInvalidLength : Z := 2.
Definition ErrorCodeInvalidName : Z := 3.
Definition ErrorCodeInvalidTag : Z := 4.
Definition ErrorCodeUnknownRepository : Z := 5.
Definition ErrorCodeUnknownManifest : Z := 6.
Definition ErrorCodeInvalidManifest : Z := 7.
Definition ErrorCodeUnverifiedManifest : Z := 8.
Definition ErrorCodeUnknownLayer : Z := 9.
Definition ErrorCodeUnknownLayerUpload : Z := 10.
Definition ErrorCodeUntrustedSignature : Z := 11.

(** The composite literals of the two tables, entry by entry. *)
Definition errorCodeStrings_entries : list (Z * string) :=
  [ (ErrorCodeUnknown,            "UNKNOWN");
    (ErrorCodeInvalidDigest,      "INVALID_DIGEST");
    (ErrorCodeInvalidLength,      "INVALID_LENGTH");
    (ErrorCodeInvalidName,        "INVALID_NAME");
    (ErrorCodeInvalidTag,         "INVALID_TAG");
    (ErrorCodeUnknownRepository,  "UNKNOWN_REPOSITORY");
    (ErrorCodeUnknownManifest,    "UNKNOWN_MANIFEST");
    (ErrorCodeInvalidManifest,    "INVALID_MANIFEST");
    (ErrorCodeUnverifiedManifest, "UNVERIFIED_MANIFEST");
    (ErrorCodeUnknownLayer,       "UNKNOWN_LAYER");
    (ErrorCodeUnknownLayerUpload, "UNKNOWN_LAYER_UPLOAD");
    (ErrorCodeUntrustedSignature, "UNTRUSTED_SIGNATURE") ].

Definition errorCodesMessages_entries : list (Z * string) :=
  [ (ErrorCodeUnknown,            "unknown error");
    (ErrorCodeInvalidDigest,      "provided digest did not match uploaded content");
    (ErrorCodeInvalidLength,      "provided length did not match content length");
    (ErrorCodeInvalidName,        "manifest name did not match URI");
    (ErrorCodeInvalidTag,         "manifest tag did not match URI");
    (ErrorCodeUnknownRepository,  "repository not known to registry");
    (ErrorCodeUnknownManifest,    "manifest not known");
    (ErrorCodeInvalidManifest,    "manifest is invalid");
    (ErrorCodeUnverifiedManifest, "manifest failed signature validation");
    (ErrorCodeUnknownLayer,       "referenced layer not available");
    (ErrorCodeUnknownLayerUpload, "cannot resume unknown layer upload");
    (ErrorCodeUntrustedSignature, "manifest signed by untrusted source") ].

Definition errorCodeStrings : gmap Z string := list_to_map errorCodeStrings_entries.
Definition errorCodesMessages : gmap Z string := list_to_map errorCodesMessages_entries.

(** A Go map indexed at an absent key yields the zero value of its element
    type. *)
Definition index_string (m : gmap Z string) (k : Z) : string := default "" (m !! k).
Definition index_code (m : gmap string Z) (k : string) : Z := default 0 (m !! k).

(** The body of [init]: starting from the empty map, one assignment
    [stringToErrorCode[v] = k] per entry visited by the [range] loop.  Go
    leaves the order of a map iteration unspecified, so the loop is
    written over the sequence of visited entries. *)
Definition init_loop (visited : list (Z * string)) : gmap string Z :=
  foldl (λ acc kv, <[kv.2 := kv.1]> acc) ∅ visited.

Definition stringToErrorCode : gmap string Z := init_loop (map_to_list errorCodeStrings).

Definition ParseErrorCode (s : string) : Z :=
  match stringToErrorCode !! s with
  | None => ErrorCodeUnknown
  | Some ec => ec
  end.

Definition ErrorCode_String (ec : Z) : string :=
  match errorCodeStrings !! ec with
  | None => index_string errorCodeStrings ErrorCodeUnknown
  | Some s => s
  end.

Definition ErrorCode_Message (ec : Z) : string :=
  match errorCodesMessages !! ec with
  | None => index_string errorCodesMessages ErrorCodeUnknown
  | Some m => m
  end.

(** [MarshalText]: the text and the (always nil) error. *)
Definition ErrorCode_MarshalText (ec : Z) : string * option string :=
  (ErrorCode_String ec, None).

(** [UnmarshalText] stores the table entry in the receiver and returns a
    nil error. *)
Definition ErrorCode_UnmarshalText (text : string) : Z * option string :=
  (index_code stringToErrorCode text, None).

(** ** Panics *)

(** A Go call either returns or panics.  The three ways this file can
    panic: the explicit [panic(...)] of [Push], a method call through a
    nil interface or nil pointer, and an index out of range. *)
Inductive panic : Type :=
  | PanicString (msg : string)
  | NilDereference
  | IndexOutOfRange.

Inductive result (A : Type) : Type :=
  | Ret (a : A)
  | Panicked (p : panic).
Arguments Ret {A} a.
Arguments Panicked {A} p.

Definition bind {A B : Type} (r : result A) (k : A → result B) : result B :=
  match r with
  | Ret a => k a
  | Panicked p => Panicked p
  end.

#[global] Instance result_ret : MRet result := @Ret.
#[global] Instance result_bind : MBind result := λ A B k r, bind r k.

Definition returns {A : Type} (r : result A) : Prop := ∃ a, r = Ret a.

(** ** The standard-library string functions used by [Error.Error] *)

(** Go strings are byte strings; [ascii] is one byte. *)

(** [strings.Replace(s, old, new, -1)] for a non-empty [old]: scanning
    from the left, every occurrence of [old] that does not overlap an
    earlier one is replaced by [new].  [skip] counts the bytes of the
    occurrence just replaced that are still to be stepped over. *)
Fixpoint replace_from (old new s : string) (skip : nat) : string :=
  match s with
  | EmptyString => EmptyString
  | String c s' =>
      match skip with
      | S k => replace_from old new s' k
      | O =>
          if String.prefix old s
          then new ++ replace_from old new s' (Nat.pred (String.length old))
          else String c (replace_from old new s' O)
      end
  end.

Definition strings_Replace_all (s old new : string) : string := replace_from old new s O.

(** [strings.ToLower] on the ASCII range: bytes 'A'..'Z' move to
    'a'..'z', every other byte is kept.  Every string of
    [errorCodeStrings], the only argument the package passes, is ASCII. *)
Definition lower_byte (c : ascii) : ascii :=
  let n := N_of_ascii c in
  if ((65 <=? n) && (n <=? 90))%N then ascii_of_N (n + 32) else c.

Fixpoint strings_ToLower (s : string) : string :=
  match s with
  | EmptyString => EmptyString
  | String c s' => String (lower_byte c) (strings_ToLower s')
  end.

(** ** Values held in interfaces *)

(** [storage.FSLayer] and [digest.Digest] belong to other packages; a
    digest is a string type and a layer descriptor carries one blob sum. *)
Abbreviation Digest := string (only parsing).
Record FSLayer := { BlobSum : string }.
Record DetailUnknownLayer := { Unknown : FSLayer }.

Record RepositoryNotFoundError := { rnf_Name : string }.
Record ImageManifestNotFoundError := { imnf_Name : string; imnf_Tag : string }.
Record BlobNotFoundError := { bnf_Name : string; bnf_Digest : string }.
Record BlobUploadNotFoundError := { bunf_Location : string }.
Record BlobUploadInvalidRangeError :=
  { buir_Location : string; buir_LastValidRange : Z; buir_BlobSize : Z }.
Record UnexpectedHTTPStatusError := { uhs_Status : string }.

(** [iface] is a value of type [interface{}]: nil, a value whose dynamic
    type has an [Error() string] method, or a value whose type has none.
    [dynerr] lists the dynamic types with that method: [Error] itself,
    [*Error] (the method set of a pointer type includes the value
    receiver's methods), the six backend error types, whose methods have
    pointer receivers, and [Foreign] for a value of any type declared
    elsewhere ([*Errors], [errors.New], ...), described by what its
    [Error()] call does.  A pointer is [None] when nil.  Nothing here
    writes through a pointer, so a non-nil pointer is its pointee. *)
Inductive iface : Type :=
  | INil
  | IErr (e : dynerr)
  | IString (s : string)
  | IInt (n : Z)
  | ILayer (d : DetailUnknownLayer)
with dynerr : Type :=
  | DError (e : Error)
  | DErrorPtr (p : option Error)
  | DRepositoryNotFound (p : option RepositoryNotFoundError)
  | DImageManifestNotFound (p : option ImageManifestNotFoundError)
  | DBlobNotFound (p : option BlobNotFoundError)
  | DBlobUploadNotFound (p : option BlobUploadNotFoundError)
  | DBlobUploadInvalidRange (p : option BlobUploadInvalidRangeError)
  | DUnexpectedHTTPStatus (p : option UnexpectedHTTPStatusError)
  | Foreign (describe : result string)
with Error : Type :=
  | mkError (Code : Z) (Message : string) (Detail : iface).

Definition Code (e : Error) : Z := let 'mkError c _ _ := e in c.
Definition Message (e : Error) : string := let 'mkError _ m _ := e in m.
Definition Detail (e : Error) : iface := let 'mkError _ _ d := e in d.

(** A value of interface type [error]: nil or a [dynerr]. *)
Abbreviation error := (option dynerr) (only parsing).

(** ** Error *)

(** [fmt.Sprintf("%s: %s", a, b)]. *)
Definition Sprintf_s_colon_s (a b : string) : string := a ++ ": " ++ b.

Definition Error_Error (e : Error) : string :=
  Sprintf_s_colon_s
    (strings_ToLower (strings_Replace_all (ErrorCode_String (Code e)) "_" " "))
    (Message e).

(** Calling a method through a nil pointer: [Error]'s value receiver has
    to be loaded, the backend types read a field of the receiver. *)
Definition through {A : Type} (p : option A) (f : A → string) : result string :=
  match p with
  | Some a => Ret (f a)
  | None => Panicked NilDereference
  end.

Definition RepositoryNotFoundError_Error (e : RepositoryNotFoundError) : string :=
  "No repository found with Name: " ++ rnf_Name e.
Definition ImageManifestNotFoundError_Error (e : ImageManifestNotFoundError) : string :=
  "No manifest found with Name: " ++ imnf_Name e ++ ", Tag: " ++ imnf_Tag e.
Definition BlobNotFoundError_Error (e : BlobNotFoundError) : string :=
  "No blob found with Name: " ++ bnf_Name e ++ ", Digest: " ++ bnf_Digest e.
Definition BlobUploadNotFoundError_Error (e : BlobUploadNotFoundError) : string :=
  "No blob upload found at Location: " ++ bunf_Location e.
Definition BlobUploadInvalidRangeError_Error (e : BlobUploadInvalidRangeError) : string :=
  "Invalid range provided for upload at Location: " ++ buir_Location e
  ++ ". Last Valid Range: " ++ pretty (buir_LastValidRange e)
  ++ ", Blob Size: " ++ pretty (buir_BlobSize e).
Definition UnexpectedHTTPStatusError_Error (e : UnexpectedHTTPStatusError) : string :=
  "Received unexpected HTTP status: " ++ uhs_Status e.

(** Dynamic dispatch of [Error()] on a non-nil interface value. *)
Definition dynerr_Error (d : dynerr) : result string :=
  match d with
  | DError e => Ret (Error_Error e)
  | DErrorPtr p => through p Error_Error
  | DRepositoryNotFound p => through p RepositoryNotFoundError_Error
  | DImageManifestNotFound p => through p ImageManifestNotFoundError_Error
  | DBlobNotFound p => through p BlobNotFoundError_Error
  | DBlobUploadNotFound p => through p BlobUploadNotFoundError_Error
  | DBlobUploadInvalidRange p => through p BlobUploadInvalidRangeError_Error
  | DUnexpectedHTTPStatus p => through p UnexpectedHTTPStatusError_Error
  | Foreign describe => describe
  end.

(** [err.Error()] for [err] of type [error]. *)
Definition error_Error (err : option dynerr) : result string :=
  match err with
  | Some d => dynerr_Error d
  | None => Panicked NilDereference
  end.

(** ** Errors *)

(** The methods have the receiver [*Errors]; they are written as
    functions from the struct the receiver points to, to the struct it
    points to afterwards. *)
Record Errors := { Errors_Errors : list (option dynerr) }.

(** The one-byte string of the escape [\n]. *)
Definition LF : string := String "010" "".

Definition Errors_Len (errs : Errors) : Z := Z.of_nat (length (Errors_Errors errs)).

Definition append_error (errs : Errors) (err : option dynerr) : Errors :=
  {| Errors_Errors := Errors_Errors errs ++ [err] |}.

(** The type switch of [PushErr] has one case, the struct type [Error];
    every other dynamic type, and the nil interface, take [default]. *)
Definition Errors_PushErr (errs : Errors) (err : option dynerr) : result Errors :=
  match err with
  | Some (DError _) => Ret (append_error errs err)
  | _ =>
      s ← error_Error err;
      Ret (append_error errs (Some (DError (mkError 0 s INil))))
  end.

(** The type assertion [detail.(error)]. *)
Definition assert_error (detail : iface) : option dynerr * bool :=
  match detail with
  | IErr e => (Some e, true)
  | _ => (None, false)
  end.

Definition Errors_Push (errs : Errors) (code : Z) (details : list iface) : result Errors :=
  if (1 <? length details)%nat
  then Panicked (PanicString "please specify zero or one detail items for this error")
  else
    let detail := if (0 <? length details)%nat then default INil (details !! 0%nat) else INil in
    detail ← (let '(err, ok) := assert_error detail in
              if ok then s ← error_Error err; Ret (IString s) else Ret detail);
    Errors_PushErr errs (Some (DError (mkError code (ErrorCode_Message code) detail))).

(** The [range] loop of the [default] case of [Errors.Error]. *)
Fixpoint Errors_Error_loop (msg : string) (l : list (option dynerr)) : result string :=
  match l with
  | [] => Ret msg
  | err :: l' => s ← error_Error err; Errors_Error_loop (msg ++ (s ++ LF)) l'
  end.

Definition Errors_Error (errs : Errors) : result string :=
  match Errors_Len errs with
  | 0 => Ret "<nil>"
  | 1 =>
      match Errors_Errors errs !! 0%nat with
      | Some err => error_Error err
      | None => Panicked IndexOutOfRange
      end
  | _ => Errors_Error_loop ("errors:" ++ LF) (Errors_Errors errs)
  end.

(** [errs.Errors[:0]]. *)
Definition Errors_Clear (errs : Errors) : Errors :=
  {| Errors_Errors := take 0 (Errors_Errors errs) |}.

(** ** The serialized form of an [Error]

    The bytes are produced by [encoding/json], which is not part of the
    package; what the package fixes is the struct tags of [Error] and the
    [MarshalText] method of its [Code] field.  The object written for an
    [Error] is modelled as its members, in field order: a field tagged
    [omitempty] is left out when its value is empty, which for a string
    means length zero and for an interface means nil. *)
Record json_tag := { json_name : string; json_omitempty : bool }.

Definition Code_tag : json_tag := {| json_name := "code"; json_omitempty := false |}.
Definition Message_tag : json_tag := {| json_name := "message"; json_omitempty := true |}.
Definition Detail_tag : json_tag := {| json_name := "detail"; json_omitempty := true |}.

Inductive json_member : Type :=
  | JText (text : string)      (* a TextMarshaler's text, written as a JSON string *)
  | JString (s : string)       (* a Go string *)
  | JValue (v : iface).        (* the encoding of a non-nil interface's dynamic value *)

Definition string_isEmptyValue (s : string) : bool := (String.length s =? 0)%nat.
Definition iface_isEmptyValue (v : iface) : bool :=
  match v with INil => true | _ => false end.

Definition emit (tag : json_tag) (empty : bool) (v : json_member) : list (string * json_member) :=
  if json_omitempty tag && empty then [] else [(json_name tag, v)].

Definition Error_members (e : Error) : list (string * json_member) :=
  emit Code_tag false (JText (ErrorCode_MarshalText (Code e)).1)
  ++ emit Message_tag (string_isEmptyValue (Message e)) (JString (Message e))
  ++ emit Detail_tag (iface_isEmptyValue (Detail e)) (JValue (Detail e)).

(** The member written under a name, if any. *)
Definition member (name : string) (ms : list (string * json_member)) : option json_member :=
  snd <$> find (λ m, String.eqb m.1 name) ms.

(** ** Notions used to state the properties *)

(** The twelve codes of the [iota] block. *)
Definition defined (c : Z) : Prop := (ErrorCodeUnknown ≤ c ≤ ErrorCodeUntrustedSignature)%Z.

(** The serialization rule with the message written always: the code,
    the message whatever it is, and the detail exactly when there is
    one. *)
Definition members_with_message_always (e : Error) : Prop :=
  member "code" (Error_members e) = Some (JText (ErrorCode_String (Code e)))
  ∧ member "message" (Error_members e) = Some (JString (Message e))
  ∧ (is_Some (member "detail" (Error_members e)) ↔ Detail e ≠ INil).

(** The spec's reading of the code part, byte by byte: an underscore
    becomes a space, any other byte is lowercased. *)
Definition lower_spaced_byte (c : ascii) : ascii :=
  if Ascii.eqb c "_" then " "%char else lower_byte c.

Fixpoint lower_spaced (s : string) : string :=
  match s with
  | EmptyString => EmptyString
  | String c s' => String (lower_spaced_byte c) (lower_spaced s')
  end.

Fixpoint all_bytes (P : ascii → bool) (s : string) : bool :=
  match s with
  | EmptyString => true
  | String c s' => P c && all_bytes P s'
  end.

Definition is_ascii (c : ascii) : bool := (N_of_ascii c <? 128)%N.

(** The descriptions of the elements, first to last; a panic of an
    element's [Error()] is a panic of the whole. *)
Fixpoint descriptions (l : list (option dynerr)) : result (list string) :=
  match l with
  | [] => Ret []
  | err :: l' => d ← error_Error err; ds ← descriptions l'; Ret (d :: ds)
  end.

(** Each description followed by a line feed. *)
Fixpoint one_per_line (ds : list string) : string :=
  match ds with
  | [] => ""
  | d :: ds' => d ++ LF ++ one_per_line ds'
  end.

Definition arity_panic : panic :=
  PanicString "please specify zero or one detail items for this error".

(** The [Error] that [Push] builds from a code and the stored detail. *)
Definition pushed (code : Z) (detail : iface) : option dynerr :=
  Some (DError (mkError code (ErrorCode_Message code) detail)).

Definition is_Error_value (err : option dynerr) : Prop := ∃ e, err = Some (DError e).

(** ** Envelopes built through the methods *)

(** Every element is an [Error] value. *)
Definition homogeneous (errs : Errors) : Prop :=
  Forall is_Error_value (Errors_Errors errs).

(** One call of a mutating method of [*Errors]. *)
Inductive call : Type :=
  | CallPush (code : Z) (details : list iface)
  | CallPushErr (err : option dynerr)
  | CallClear.

Definition do_call (errs : Errors) (c : call) : result Errors :=
  match c with
  | CallPush code details => Errors_Push errs code details
  | CallPushErr err => Errors_PushErr errs err
  | CallClear => Ret (Errors_Clear errs)
  end.

(** A sequence of calls on one envelope, first to last. *)
Fixpoint run (calls : list call) (errs : Errors) : result Errors :=
  match calls with
  | [] => Ret errs
  | c :: calls' => errs' ← do_call errs c; run calls' errs'
  end.

(** The panic of the first element whose [Error()] panics. *)
Fixpoint first_panic (l : list (option dynerr)) : option panic :=
  match l with
  | [] => None
  | err :: l' =>
      match error_Error err with
      | Panicked p => Some p
      | Ret _ => first_panic l'
      end
  end.

Definition not_colon (c : ascii) : bool := negb (Ascii.eqb c ":").

(** ** The serialized form of the envelope *)

(** [Errors []error `json:"errors,omitempty"`]: a slice is empty for
    [omitempty] when its length is zero. *)
Definition Errors_tag : json_tag := {| json_name := "errors"; json_omitempty := true |}.

Definition slice_isEmptyValue (l : list (option dynerr)) : bool := (length l =? 0)%nat.

(** The array member and the elements it lists. *)
Inductive envelope_member : Type :=
  | JArray (elems : list (option dynerr)).

Definition Errors_members (errs : Errors) : list (string * envelope_member) :=
  if json_omitempty Errors_tag && slice_isEmptyValue (Errors_Errors errs)
  then []
  else [(json_name Errors_tag, JArray (Errors_Errors errs))].

(** ** The backend error types *)

(** Which of the six backend types a dynamic type is, if any. *)
Definition backend_kind (d : dynerr) : option nat :=
  match d with
  | DRepositoryNotFound _ => Some 0%nat
  | DImageManifestNotFound _ => Some 1%nat
  | DBlobNotFound _ => Some 2%nat
  | DBlobUploadNotFound _ => Some 3%nat
  | DBlobUploadInvalidRange _ => Some 4%nat
  | DUnexpectedHTTPStatus _ => Some 5%nat
  | DError _ | DErrorPtr _ | Foreign _ => None
  end.

(** ** The slice behind the envelope

    [errs.Errors] is a slice: a window of [s_len] elements, out of
    [s_cap], on an array that other slices may share.  Arrays live in a
    heap and are named by their position in it; a slice of capacity 0,
    such as the nil slice of a zero [Errors], has no array to speak of.
    All slices here start at the first element of their array, since the
    only slice expression in the package is [errs.Errors[:0]]. *)
Record slice := { s_array : nat; s_len : nat; s_cap : nat }.

Definition nil_slice : slice := {| s_array := 0; s_len := 0; s_cap := 0 |}.

Definition array_of (h : list (list (option dynerr))) (s : slice) : list (option dynerr) :=
  default [] (h !! s_array s).

(** What indexing and [range] see through a slice. *)
Definition elements (h : list (list (option dynerr))) (s : slice) : list (option dynerr) :=
  take (s_len s) (array_of h s).

(** [s[:0]]: same array, same capacity, length 0. *)
Definition reslice_0 (s : slice) : slice :=
  {| s_array := s_array s; s_len := 0; s_cap := s_cap s |}.

Section Backing.

(** The capacity [append] gives to the array it allocates for a slice
    that must hold [n] elements.  Go promises no more than room. *)
Variable grow : nat → nat.

(** [append(s, x)]: with room left the element is written in place,
    just past the window; otherwise the elements and [x] go to a new
    array, the rest of which holds the zero value of [error]. *)
Definition slice_append (h : list (list (option dynerr))) (s : slice) (x : option dynerr)
    : list (list (option dynerr)) * slice :=
  if (s_len s <? s_cap s)%nat
  then (<[s_array s := <[s_len s := x]> (array_of h s)]> h,
        {| s_array := s_array s; s_len := S (s_len s); s_cap := s_cap s |})
  else ((h ++ [elements h s ++ x :: replicate (grow (S (s_len s)) - S (s_len s)) None])%list,
        {| s_array := length h; s_len := S (s_len s); s_cap := grow (S (s_len s)) |}).

(** The methods on the heap and the slice of the receiver. *)
Definition Backed_PushErr (st : list (list (option dynerr)) * slice) (err : option dynerr)
    : result (list (list (option dynerr)) * slice) :=
  match err with
  | Some (DError _) => Ret (slice_append st.1 st.2 err)
  | _ =>
      s ← error_Error err;
      Ret (slice_append st.1 st.2 (Some (DError (mkError 0 s INil))))
  end.

Definition Backed_Push (st : list (list (option dynerr)) * slice) (code : Z)
    (details : list iface) : result (list (list (option dynerr)) * slice) :=
  if (1 <? length details)%nat
  then Panicked (PanicString "please specify zero or one detail items for this error")
  else
    let detail := if (0 <? length details)%nat then default INil (details !! 0%nat) else INil in
    detail ← (let '(err, ok) := assert_error detail in
              if ok then s ← error_Error err; Ret (IString s) else Ret detail);
    Backed_PushErr st (Some (DError (mkError code (ErrorCode_Message code) detail))).

Definition Backed_Clear (st : list (list (option dynerr)) * slice)
    : list (list (option dynerr)) * slice :=
  (st.1, reslice_0 st.2).

Definition Backed_Len (st : list (list (option dynerr)) * slice) : Z := Z.of_nat (s_len st.2).

Definition Backed_call (st : list (list (option dynerr)) * slice) (c : call)
    : result (list (list (option dynerr)) * slice) :=
  match c with
  | CallPush code details => Backed_Push st code details
  | CallPushErr err => Backed_PushErr st err
  | CallClear => Ret (Backed_Clear st)
  end.

Fixpoint Backed_run (calls : list call) (st : list (list (option dynerr)) * slice)
    : result (list (list (option dynerr)) * slice) :=
  match calls with
  | [] => Ret st
  | c :: calls' => st' ← Backed_call st c; Backed_run calls' st'
  end.

End Backing.

(** The envelope as the list of what its slice shows. *)
Definition shown (st : list (list (option dynerr)) * slice) : Errors :=
  {| Errors_Errors := elements st.1 st.2 |}.

(** A slice fits its heap: the window is within the capacity, and a
    slice with capacity has an array of that many elements. *)
Definition fits (st : list (list (option dynerr)) * slice) : Prop :=
  (s_len st.2 ≤ s_cap st.2)%nat
  ∧ ((0 < s_cap st.2)%nat →
     (s_array st.2 < length st.1)%nat ∧ length (array_of st.1 st.2) = s_cap st.2).

(** Both panic alike, or both return and the slice shows the list. *)
Definition agree (r : result (list (list (option dynerr)) * slice)) (r' : result Errors) : Prop :=
  match r, r' with
  | Ret st, Ret errs => fits st ∧ shown st = errs
  | Panicked p, Panicked q => p = q
  | _, _ => False
  end.

(** * Properties *)

(** ** Test vectors *)

Example parse_digest : ParseErrorCode "INVALID_DIGEST" = 1.
Proof. vm_compute. reflexivity. Qed.

Example string_11 : ErrorCode_String 11 = "UNTRUSTED_SIGNATURE".
Proof. vm_compute. reflexivity. Qed.

Example string_12 : ErrorCode_String 12 = "UNKNOWN".
Proof. vm_compute. reflexivity. Qed.

Example message_neg : ErrorCode_Message (-3) = "unknown error".
Proof. vm_compute. reflexivity. Qed.

Example push_digest_describe :
  (errs ← Errors_Push {| Errors_Errors := [] |} ErrorCodeInvalidDigest []; Errors_Error errs)
  = Ret "invalid digest: provided digest did not match uploaded content".
Proof. vm_compute. reflexivity. Qed.

Example blob_not_found_describe :
  dynerr_Error (DBlobNotFound (Some {| bnf_Name := "library/busybox"; bnf_Digest := "sha256:abcd" |}))
  = Ret "No blob found with Name: library/busybox, Digest: sha256:abcd".
Proof. reflexivity. Qed.

Example invalid_range_describe :
  dynerr_Error (DBlobUploadInvalidRange
    (Some {| buir_Location := "/v2/x/blobs/uploads/1"; buir_LastValidRange := 99; buir_BlobSize := 500 |}))
  = Ret "Invalid range provided for upload at Location: /v2/x/blobs/uploads/1. Last Valid Range: 99, Blob Size: 500".
Proof. vm_compute. reflexivity. Qed.

Example members_full :
  Error_members (mkError ErrorCodeUnknownLayer "referenced layer not available"
                   (ILayer {| Unknown := {| BlobSum := "sha256:abcd" |} |}))
  = [ ("code", JText "UNKNOWN_LAYER");
      ("message", JString "referenced layer not available");
      ("detail", JValue (ILayer {| Unknown := {| BlobSum := "sha256:abcd" |} |})) ].
Proof. vm_compute. reflexivity. Qed.

(** ** The code tables *)

Lemma errorCodeStrings_keys_NoDup : NoDup (errorCodeStrings_entries.*1).
Proof. apply (bool_decide_unpack _). vm_compute. reflexivity. Qed.

Lemma errorCodeStrings_values_NoDup : NoDup (errorCodeStrings_entries.*2).
Proof. apply (bool_decide_unpack _). vm_compute. reflexivity. Qed.

Lemma errorCodesMessages_keys_NoDup : NoDup (errorCodesMessages_entries.*1).
Proof. apply (bool_decide_unpack _). vm_compute. reflexivity. Qed.

Lemma defined_cases (c : Z) :
  defined c ↔ c ∈ [0; 1; 2; 3; 4; 5; 6; 7; 8; 9; 10; 11].
Proof.
  unfold defined, ErrorCodeUnknown, ErrorCodeUntrustedSignature.
  rewrite !elem_of_cons, elem_of_nil. lia.
Qed.

Lemma errorCodeStrings_keys : errorCodeStrings_entries.*1 = [0; 1; 2; 3; 4; 5; 6; 7; 8; 9; 10; 11].
Proof. reflexivity. Qed.

Lemma errorCodesMessages_keys : errorCodesMessages_entries.*1 = [0; 1; 2; 3; 4; 5; 6; 7; 8; 9; 10; 11].
Proof. reflexivity. Qed.

(** The keys of a table literal are exactly the defined codes. *)
Lemma table_lookup_defined (entries : list (Z * string)) (c : Z) :
  entries.*1 = [0; 1; 2; 3; 4; 5; 6; 7; 8; 9; 10; 11] →
  is_Some ((list_to_map entries : gmap Z string) !! c) ↔ defined c.
Proof.
  intros Hkeys. rewrite defined_cases, <- Hkeys. split.
  - intros [s Hs]. apply elem_of_list_to_map_2 in Hs.
    apply list_elem_of_fmap. exists (c, s). done.
  - intros Hin. destruct (list_to_map entries !! c) eqn:E; [eauto|].
    apply not_elem_of_list_to_map_2 in E. done.
Qed.

Lemma errorCodeStrings_defined (c : Z) : is_Some (errorCodeStrings !! c) ↔ defined c.
Proof. apply table_lookup_defined, errorCodeStrings_keys. Qed.

Lemma errorCodesMessages_defined (c : Z) : is_Some (errorCodesMessages !! c) ↔ defined c.
Proof. apply table_lookup_defined, errorCodesMessages_keys. Qed.

(** *** The reverse table *)

Lemma init_loop_snoc (l : list (Z * string)) (k : Z) (v : string) :
  init_loop (l ++ [(k, v)]) = <[v := k]> (init_loop l).
Proof. unfold init_loop. rewrite foldl_app. reflexivity. Qed.

(** When no string occurs twice among the visited entries, the loop
    builds the converse of the entries. *)
Lemma init_loop_lookup (l : list (Z * string)) (s : string) (k : Z) :
  NoDup (l.*2) → init_loop l !! s = Some k ↔ (k, s) ∈ l.
Proof.
  induction l as [|[k' v] l IH] using rev_ind; intros Hnd.
  - unfold init_loop; simpl. rewrite lookup_empty, elem_of_nil. split; [discriminate | tauto].
  - rewrite fmap_app, NoDup_app in Hnd. destruct Hnd as (Hl & Hdisj & _).
    rewrite init_loop_snoc, elem_of_app, list_elem_of_singleton.
    destruct (decide (v = s)) as [->|Hne].
    + rewrite lookup_insert_eq. split.
      * intros [= ->]. right. reflexivity.
      * intros [Hin | [= -> ]]; [|reflexivity].
        exfalso. apply (Hdisj s).
        -- apply list_elem_of_fmap. exists (k, s). done.
        -- simpl. apply list_elem_of_singleton. reflexivity.
    + rewrite lookup_insert_ne by done. rewrite (IH Hl). split.
      * intros H; left; exact H.
      * intros [H | [= -> ->]]; [exact H | done].
Qed.

Lemma errorCodeStrings_to_list : map_to_list errorCodeStrings ≡ₚ errorCodeStrings_entries.
Proof. apply map_to_list_to_map, errorCodeStrings_keys_NoDup. Qed.

(** The reverse table is the converse of the forward table. *)
Lemma stringToErrorCode_lookup (s : string) (k : Z) :
  stringToErrorCode !! s = Some k ↔ errorCodeStrings !! k = Some s.
Proof.
  unfold stringToErrorCode. rewrite init_loop_lookup.
  - apply elem_of_map_to_list.
  - rewrite errorCodeStrings_to_list. apply errorCodeStrings_values_NoDup.
Qed.

(** Whatever order the [range] loop of [init] visits the entries in, it
    builds the same table. *)
Lemma init_order_irrelevant (visited : list (Z * string)) :
  visited ≡ₚ map_to_list errorCodeStrings → init_loop visited = stringToErrorCode.
Proof.
  intros Hperm. apply map_eq. intros s. apply option_eq. intros k.
  rewrite stringToErrorCode_lookup, init_loop_lookup.
  - rewrite Hperm. apply elem_of_map_to_list.
  - rewrite Hperm, errorCodeStrings_to_list. apply errorCodeStrings_values_NoDup.
Qed.

Lemma String_defined (c : Z) : defined c → errorCodeStrings !! c = Some (ErrorCode_String c).
Proof.
  intros Hc. apply errorCodeStrings_defined in Hc as [s Hs].
  unfold ErrorCode_String. rewrite Hs. reflexivity.
Qed.

Lemma ParseErrorCode_String (c : Z) : defined c → ParseErrorCode (ErrorCode_String c) = c.
Proof.
  intros Hc. apply String_defined, stringToErrorCode_lookup in Hc.
  unfold ParseErrorCode. rewrite Hc. reflexivity.
Qed.

Lemma String_undefined (c : Z) : ¬ defined c → ErrorCode_String c = "UNKNOWN".
Proof.
  intros Hc. unfold ErrorCode_String.
  destruct (errorCodeStrings !! c) as [s|] eqn:E.
  - exfalso. apply Hc, errorCodeStrings_defined. eauto.
  - reflexivity.
Qed.

Lemma Message_undefined (c : Z) : ¬ defined c → ErrorCode_Message c = "unknown error".
Proof.
  intros Hc. unfold ErrorCode_Message.
  destruct (errorCodesMessages !! c) as [s|] eqn:E.
  - exfalso. apply Hc, errorCodesMessages_defined. eauto.
  - reflexivity.
Qed.

(** C1: for each of the twelve defined codes, parsing the canonical
    string of the code gives the code back; the forward table has an
    entry for the code, and no other defined code has the same canonical
    string. *)
Theorem parse_canonical_string_roundtrip (c : Z) :
  defined c →
  ParseErrorCode (ErrorCode_String c) = c
  ∧ is_Some (errorCodeStrings !! c)
  ∧ ∀ c', defined c' → ErrorCode_String c' = ErrorCode_String c → c' = c.
Proof.
  intros Hc. split; [|split].
  - apply ParseErrorCode_String, Hc.
  - apply errorCodeStrings_defined, Hc.
  - intros c' Hc' Heq.
    rewrite <- (ParseErrorCode_String c Hc), <- (ParseErrorCode_String c' Hc').
    rewrite Heq. reflexivity.
Qed.

Lemma parse_canonical_string_roundtrip_witness :
  defined ErrorCodeUnverifiedManifest
  ∧ ParseErrorCode (ErrorCode_String ErrorCodeUnverifiedManifest) = ErrorCodeUnverifiedManifest.
Proof.
  assert (H : defined ErrorCodeUnverifiedManifest) by (vm_compute; split; discriminate).
  split; [exact H|].
  exact (proj1 (parse_canonical_string_roundtrip ErrorCodeUnverifiedManifest H)).
Defined.

(** C3: a string absent from the reverse table parses to the unknown
    code, and a code outside the defined set has the canonical string
    "UNKNOWN" and the message "unknown error". *)
Theorem unknown_fallbacks (s : string) (c : Z) :
  stringToErrorCode !! s = None →
  ¬ defined c →
  ParseErrorCode s = ErrorCodeUnknown
  ∧ ErrorCode_String c = "UNKNOWN"
  ∧ ErrorCode_Message c = "unknown error".
Proof.
  intros Hs Hc. split; [|split].
  - unfold ParseErrorCode. rewrite Hs. reflexivity.
  - apply String_undefined, Hc.
  - apply Message_undefined, Hc.
Qed.

Lemma unknown_fallbacks_witness :
  ParseErrorCode "invalid_digest" = ErrorCodeUnknown
  ∧ ErrorCode_String 12 = "UNKNOWN"
  ∧ ErrorCode_Message (-1) = "unknown error".
Proof.
  assert (Hs : stringToErrorCode !! "invalid_digest" = None) by (vm_compute; reflexivity).
  assert (H12 : ¬ defined 12) by (unfold defined, ErrorCodeUntrustedSignature; lia).
  assert (Hm1 : ¬ defined (-1)) by (unfold defined, ErrorCodeUnknown; lia).
  split; [|split].
  - exact (proj1 (unknown_fallbacks "invalid_digest" 12 Hs H12)).
  - exact (proj1 (proj2 (unknown_fallbacks "invalid_digest" 12 Hs H12))).
  - exact (proj2 (proj2 (unknown_fallbacks "invalid_digest" (-1) Hs Hm1))).
Defined.

(** ** Error *)

(** *** Serialized members *)

(** C2, as stated, fails: an [Error] with the empty message is written
    with no message member, since the field is tagged [omitempty]. *)
Lemma empty_message_is_omitted :
  Error_members (mkError ErrorCodeInvalidDigest "" INil) = [("code", JText "INVALID_DIGEST")]
  ∧ member "message" (Error_members (mkError ErrorCodeInvalidDigest "" INil)) = None
  ∧ ¬ members_with_message_always (mkError ErrorCodeInvalidDigest "" INil).
Proof.
  split; [vm_compute; reflexivity|]. split; [vm_compute; reflexivity|].
  intros (_ & Hmsg & _). vm_compute in Hmsg. discriminate.
Qed.

(** C2 (amended): the code member is always written and carries the
    canonical string of the code; the message member is written exactly
    when the message is not empty, and then carries the message; the
    detail member is written exactly when the detail is not nil, and then
    carries the detail; the members come in the order code, message,
    detail. *)
Theorem serialized_members (e : Error) :
  member "code" (Error_members e) = Some (JText (ErrorCode_String (Code e)))
  ∧ member "message" (Error_members e)
    = (if decide (Message e = "") then None else Some (JString (Message e)))
  ∧ member "detail" (Error_members e)
    = (match Detail e with INil => None | d => Some (JValue d) end)
  ∧ (Error_members e).*1
    = (["code"] ++ (if decide (Message e = "") then [] else ["message"])
       ++ (match Detail e with INil => [] | _ => ["detail"] end))%list.
Proof.
  destruct e as [c m d]. unfold Error_members, emit, member. cbn [Code Message Detail].
  destruct m as [|x m]; destruct d; repeat split; reflexivity.
Qed.

(** *** The textual form *)

Lemma append_cons (x : ascii) (a b : string) : String x a ++ b = String x (a ++ b).
Proof. reflexivity. Qed.

Lemma append_assoc (a b c : string) : (a ++ b) ++ c = a ++ (b ++ c).
Proof.
  induction a as [|x a IH]; [reflexivity|].
  rewrite !append_cons, IH. reflexivity.
Qed.

Lemma length_append (a b : string) :
  String.length (a ++ b) = (String.length a + String.length b)%nat.
Proof.
  induction a as [|x a IH]; [reflexivity|].
  rewrite append_cons. cbn [String.length]. rewrite IH. reflexivity.
Qed.

Lemma ToLower_Replace_underscore (s : string) :
  strings_ToLower (strings_Replace_all s "_" " ") = lower_spaced s.
Proof.
  unfold strings_Replace_all. induction s as [|c s IH]; [reflexivity|].
  cbn [replace_from String.prefix String.length Nat.pred lower_spaced].
  unfold lower_spaced_byte.
  destruct (ascii_dec "_" c) as [<-|Hne].
  - assert (Hp : String.prefix "" s = true) by (destruct s; reflexivity).
    rewrite Hp. change (" " ++ replace_from "_" " " s 0) with (String " " (replace_from "_" " " s 0)).
    cbn [strings_ToLower]. rewrite IH. reflexivity.
  - cbn [strings_ToLower]. rewrite IH.
    destruct (Ascii.eqb_spec c "_") as [->|_]; [congruence | reflexivity].
Qed.

Lemma ErrorCode_String_in_table (c : Z) : ErrorCode_String c ∈ errorCodeStrings_entries.*2.
Proof.
  unfold ErrorCode_String. destruct (errorCodeStrings !! c) as [s|] eqn:E.
  - apply elem_of_list_to_map_2 in E. apply list_elem_of_fmap. exists (c, s). done.
  - apply list_elem_of_here.
Qed.

(** Every canonical string is ASCII, the range on which [strings_ToLower]
    is [strings.ToLower]. *)
Lemma ErrorCode_String_ascii (c : Z) : all_bytes is_ascii (ErrorCode_String c) = true.
Proof.
  assert (H : Forall (λ s, all_bytes is_ascii s = true) (errorCodeStrings_entries.*2))
    by (repeat constructor).
  rewrite Forall_forall in H. apply H, ErrorCode_String_in_table.
Qed.

(** C8: the textual form of an [Error] is the canonical string of its
    code with every underscore turned into a space and every other byte
    lowercased, then a colon and a space, then the message; an [Error]
    with code INVALID_DIGEST and that code's default message reads
    "invalid digest: provided digest did not match uploaded content". *)
Theorem Error_Error_format (e : Error) :
  Error_Error e = lower_spaced (ErrorCode_String (Code e)) ++ ": " ++ Message e
  ∧ Error_Error (mkError ErrorCodeInvalidDigest (ErrorCode_Message ErrorCodeInvalidDigest) INil)
    = "invalid digest: provided digest did not match uploaded content".
Proof.
  split.
  - unfold Error_Error, Sprintf_s_colon_s. rewrite ToLower_Replace_underscore. reflexivity.
  - vm_compute. reflexivity.
Qed.

(** ** Errors *)

Lemma append_empty_r (a : string) : a ++ "" = a.
Proof. induction a as [|x a IH]; [reflexivity|]. rewrite append_cons, IH. reflexivity. Qed.

Lemma Errors_Error_loop_spec (l : list (option dynerr)) (msg : string) (ds : list string) :
  descriptions l = Ret ds → Errors_Error_loop msg l = Ret (msg ++ one_per_line ds).
Proof.
  revert msg ds. induction l as [|err l IH]; intros msg ds Hds.
  - injection Hds as <-. simpl. rewrite append_empty_r. reflexivity.
  - cbn [descriptions Errors_Error_loop] in *.
    destruct (error_Error err) as [d|p]; [|discriminate].
    cbn [mbind result_bind bind] in *.
    destruct (descriptions l) as [ds'|p]; [|discriminate].
    injection Hds as <-. rewrite (IH _ ds' eq_refl).
    cbn [one_per_line]. rewrite !append_assoc. reflexivity.
Qed.

Lemma Errors_Error_many (err1 err2 : option dynerr) (l : list (option dynerr))
    (ds : list string) :
  descriptions (err1 :: err2 :: l) = Ret ds →
  Errors_Error {| Errors_Errors := err1 :: err2 :: l |}
  = Ret ("errors:" ++ LF ++ one_per_line ds).
Proof.
  intros Hds. unfold Errors_Error, Errors_Len. cbn [Errors_Errors length].
  replace (Z.of_nat (S (S (length l)))) with (Z.pos (Pos.of_succ_nat (S (length l)))) by lia.
  destruct (Pos.of_succ_nat (S (length l))) eqn:E; try lia.
  all: rewrite (Errors_Error_loop_spec _ _ ds Hds), append_assoc; reflexivity.
Qed.

(** C4: the envelope reads "<nil>" when it holds nothing, reads as its
    element when it holds one, and when it holds two or more reads
    "errors:", a line feed, and then the description of each element
    followed by a line feed, first pushed first. *)
Theorem Errors_Error_cases (err err1 err2 : option dynerr) (l : list (option dynerr))
    (e1 e2 : Error) :
  Errors_Error {| Errors_Errors := [] |} = Ret "<nil>"
  ∧ Errors_Error {| Errors_Errors := [err] |} = error_Error err
  ∧ (∀ ds, descriptions (err1 :: err2 :: l) = Ret ds →
       Errors_Error {| Errors_Errors := err1 :: err2 :: l |}
       = Ret ("errors:" ++ LF ++ one_per_line ds))
  ∧ (errs1 ← Errors_PushErr {| Errors_Errors := [] |} (Some (DError e1));
     errs2 ← Errors_PushErr errs1 (Some (DError e2));
     Errors_Error errs2)
    = Ret ("errors:" ++ LF ++ Error_Error e1 ++ LF ++ Error_Error e2 ++ LF).
Proof.
  split; [reflexivity|]. split; [reflexivity|]. split.
  - intros ds Hds. apply Errors_Error_many, Hds.
  - exact (Errors_Error_many (Some (DError e1)) (Some (DError e2)) []
             [Error_Error e1; Error_Error e2] eq_refl).
Qed.

Lemma Errors_Error_cases_witness :
  Errors_Error {| Errors_Errors :=
      [ Some (DError (mkError ErrorCodeInvalidTag "manifest tag did not match URI" INil));
        Some (DRepositoryNotFound (Some {| rnf_Name := "library/busybox" |}));
        Some (Foreign (Ret "EOF")) ] |}
  = Ret ("errors:" ++ LF ++ "invalid tag: manifest tag did not match URI" ++ LF
         ++ "No repository found with Name: library/busybox" ++ LF
         ++ "EOF" ++ LF).
Proof.
  refine (proj1 (proj2 (proj2 (Errors_Error_cases None _ _ _
    (mkError 0 "" INil) (mkError 0 "" INil))))
    [ "invalid tag: manifest tag did not match URI";
      "No repository found with Name: library/busybox"; "EOF" ] _).
  vm_compute. reflexivity.
Defined.

(** *** Push *)

Lemma Push_many (errs : Errors) (code : Z) (details : list iface) :
  (2 ≤ length details)%nat → Errors_Push errs code details = Panicked arity_panic.
Proof.
  intros Hlen. unfold Errors_Push.
  destruct (1 <? length details)%nat eqn:E; [reflexivity|].
  apply Nat.ltb_ge in E. lia.
Qed.

Lemma Push_none (errs : Errors) (code : Z) :
  Errors_Push errs code [] = Ret (append_error errs (pushed code INil)).
Proof. reflexivity. Qed.

Lemma Push_one_error (errs : Errors) (code : Z) (d : dynerr) :
  Errors_Push errs code [IErr d]
  = (s ← dynerr_Error d; Ret (append_error errs (pushed code (IString s)))).
Proof.
  unfold Errors_Push. cbn [length Nat.ltb Nat.leb lookup list_lookup default from_option id assert_error].
  cbn [error_Error]. destruct (dynerr_Error d); reflexivity.
Qed.

Lemma Push_one_other (errs : Errors) (code : Z) (d : iface) :
  (∀ e, d ≠ IErr e) →
  Errors_Push errs code [d] = Ret (append_error errs (pushed code d)).
Proof.
  intros Hd. destruct d; try reflexivity. exfalso. exact (Hd e eq_refl).
Qed.

(** C5, as stated, fails in its last sentence: with the single detail
    argument a nil pointer to a [RepositoryNotFoundError], which is an
    [error], [Push] calls the detail's [Error()], and that call
    dereferences the nil receiver. *)
Lemma Push_one_nil_pointer_detail_panics :
  length [IErr (DRepositoryNotFound None)] = 1%nat
  ∧ Errors_Push {| Errors_Errors := [] |} ErrorCodeUnknownRepository
      [IErr (DRepositoryNotFound None)] = Panicked NilDereference
  ∧ ¬ returns (Errors_Push {| Errors_Errors := [] |} ErrorCodeUnknownRepository
                 [IErr (DRepositoryNotFound None)]).
Proof.
  split; [reflexivity|]. split; [reflexivity|].
  intros [errs' H]. vm_compute in H. discriminate.
Qed.

(** C5 (amended): with two or more detail arguments [Push] panics with
    its own message, whatever the code and the details; with no detail
    argument it returns; with one detail argument it returns unless the
    detail is an error value whose [Error()] call panics, and then
    [Push] panics with that very panic. *)
Theorem Push_detail_arity (errs : Errors) (code : Z) (details : list iface) :
  ((2 ≤ length details)%nat → Errors_Push errs code details = Panicked arity_panic)
  ∧ (details = [] → returns (Errors_Push errs code details))
  ∧ (∀ d, details = [d] → (∀ e, d = IErr e → returns (dynerr_Error e)) →
       returns (Errors_Push errs code details))
  ∧ (∀ e p, details = [IErr e] → dynerr_Error e = Panicked p →
       Errors_Push errs code details = Panicked p).
Proof.
  split; [apply Push_many|]. split; [|split].
  - intros ->. rewrite Push_none. eexists; reflexivity.
  - intros d -> Hd. destruct d as [|e| | |];
      try (rewrite Push_one_other by discriminate; eexists; reflexivity).
    rewrite Push_one_error. destruct (Hd e eq_refl) as [s ->].
    eexists; reflexivity.
  - intros e p -> Hp. rewrite Push_one_error, Hp. reflexivity.
Qed.

Lemma Push_detail_arity_witness :
  Errors_Push {| Errors_Errors := [] |} ErrorCodeInvalidName [IString "a"; IString "b"]
    = Panicked arity_panic
  ∧ returns (Errors_Push {| Errors_Errors := [] |} ErrorCodeInvalidName [])
  ∧ returns (Errors_Push {| Errors_Errors := [] |} ErrorCodeUnknownLayer
               [ILayer {| Unknown := {| BlobSum := "sha256:abcd" |} |}])
  ∧ Errors_Push {| Errors_Errors := [] |} ErrorCodeUnknown
      [IErr (DBlobNotFound None)] = Panicked NilDereference.
Proof.
  pose (layer := ILayer {| Unknown := {| BlobSum := "sha256:abcd" |} |}).
  split; [|split; [|split]].
  - apply (proj1 (Push_detail_arity _ _ [IString "a"; IString "b"])). simpl. lia.
  - apply (proj1 (proj2 (Push_detail_arity _ _ []))). reflexivity.
  - apply (proj1 (proj2 (proj2 (Push_detail_arity _ _ [layer]))) layer);
      [reflexivity | discriminate].
  - apply (proj2 (proj2 (proj2 (Push_detail_arity _ _ [IErr (DBlobNotFound None)])))
             (DBlobNotFound None)); reflexivity.
Defined.

(** C6: pushing a code with one detail that is an error value whose
    [Error()] returns [s] appends the [Error] with that code, the code's
    default message, and the string [s] as its detail. *)
Theorem Push_error_detail (errs : Errors) (code : Z) (d : dynerr) (s : string) :
  dynerr_Error d = Ret s →
  Errors_Push errs code [IErr d]
  = Ret {| Errors_Errors :=
             Errors_Errors errs
             ++ [Some (DError (mkError code (ErrorCode_Message code) (IString s)))] |}.
Proof. intros Hs. rewrite Push_one_error, Hs. reflexivity. Qed.

Lemma Push_error_detail_witness :
  Errors_Push {| Errors_Errors := [] |} ErrorCodeUnknownRepository
    [IErr (DRepositoryNotFound (Some {| rnf_Name := "library/busybox" |}))]
  = Ret {| Errors_Errors :=
      [Some (DError (mkError ErrorCodeUnknownRepository "repository not known to registry"
                       (IString "No repository found with Name: library/busybox")))] |}.
Proof.
  apply (Push_error_detail {| Errors_Errors := [] |} ErrorCodeUnknownRepository
           (DRepositoryNotFound (Some {| rnf_Name := "library/busybox" |}))).
  reflexivity.
Defined.

(** *** PushErr *)

Lemma PushErr_default (errs : Errors) (err : option dynerr) :
  ¬ is_Error_value err →
  Errors_PushErr errs err
  = (s ← error_Error err; Ret (append_error errs (Some (DError (mkError 0 s INil))))).
Proof.
  intros Hne. destruct err as [[]|]; try reflexivity.
  exfalso. apply Hne. eexists; reflexivity.
Qed.

Lemma classic_Error_value (err : option dynerr) : is_Error_value err ∨ ¬ is_Error_value err.
Proof.
  destruct err as [[e| | | | | | | |]|];
    first [left; eexists; reflexivity | right; intros [e' He']; discriminate He'].
Qed.

(** C7: an [Error] value is appended as it is; any other error value,
    with [s] what its [Error()] returns, is appended as the [Error] with
    the unknown code, the message [s] and no detail; so the element that
    a [PushErr] call stores is always an [Error] value. *)
Theorem PushErr_stores_Error (errs : Errors) (err : option dynerr) :
  (is_Error_value err →
     Errors_PushErr errs err = Ret {| Errors_Errors := Errors_Errors errs ++ [err] |})
  ∧ (∀ s, ¬ is_Error_value err → error_Error err = Ret s →
     Errors_PushErr errs err
     = Ret {| Errors_Errors :=
                Errors_Errors errs ++ [Some (DError (mkError ErrorCodeUnknown s INil))] |})
  ∧ (∀ errs', Errors_PushErr errs err = Ret errs' →
     ∃ e : Error, Errors_Errors errs' = (Errors_Errors errs ++ [Some (DError e)])%list).
Proof.
  split; [|split].
  - intros [e ->]. reflexivity.
  - intros s Hne Hs. rewrite (PushErr_default _ _ Hne), Hs. reflexivity.
  - intros errs' H. destruct (classic_Error_value err) as [[e ->]|Hne].
    + injection H as <-. exists e. reflexivity.
    + rewrite (PushErr_default _ _ Hne) in H.
      destruct (error_Error err) as [s|p]; [|discriminate H].
      injection H as <-. eexists. reflexivity.
Qed.

Lemma PushErr_stores_Error_witness :
  Errors_PushErr {| Errors_Errors := [] |}
    (Some (DError (mkError ErrorCodeInvalidTag "tag mismatch" (IInt 7))))
  = Ret {| Errors_Errors := [Some (DError (mkError ErrorCodeInvalidTag "tag mismatch" (IInt 7)))] |}
  ∧ Errors_PushErr {| Errors_Errors := [] |}
      (Some (DUnexpectedHTTPStatus (Some {| uhs_Status := "502 Bad Gateway" |})))
    = Ret {| Errors_Errors :=
        [Some (DError (mkError ErrorCodeUnknown
                         "Received unexpected HTTP status: 502 Bad Gateway" INil))] |}.
Proof.
  split.
  - apply (proj1 (PushErr_stores_Error {| Errors_Errors := [] |}
             (Some (DError (mkError ErrorCodeInvalidTag "tag mismatch" (IInt 7)))))).
    eexists; reflexivity.
  - apply (proj1 (proj2 (PushErr_stores_Error {| Errors_Errors := [] |}
             (Some (DUnexpectedHTTPStatus (Some {| uhs_Status := "502 Bad Gateway" |})))))).
    + intros [e He]. discriminate He.
    + reflexivity.
Defined.

Lemma Error_Error_length (e : Error) :
  (String.length (Message e) < String.length (Error_Error e))%nat.
Proof.
  unfold Error_Error, Sprintf_s_colon_s. rewrite !length_append. simpl. lia.
Qed.

(** C10: a non-nil pointer to an [Error] takes the [default] case of the
    type switch: what is appended is a new [Error] with the unknown code,
    the textual form of the pointee as its message, and no detail; it is
    never the pointee itself. *)
Theorem PushErr_pointer_to_Error (errs : Errors) (e : Error) :
  Errors_PushErr errs (Some (DErrorPtr (Some e)))
  = Ret {| Errors_Errors :=
             Errors_Errors errs
             ++ [Some (DError (mkError ErrorCodeUnknown (Error_Error e) INil))] |}
  ∧ mkError ErrorCodeUnknown (Error_Error e) INil ≠ e.
Proof.
  split; [reflexivity|].
  intros Heq. pose proof (Error_Error_length e) as Hlen.
  rewrite <- Heq in Hlen at 1. cbn [Message] in Hlen. lia.
Qed.

Example PushErr_nil_pointer_panics :
  Errors_PushErr {| Errors_Errors := [] |} (Some (DErrorPtr None)) = Panicked NilDereference
  ∧ Errors_PushErr {| Errors_Errors := [] |} None = Panicked NilDereference.
Proof. split; reflexivity. Qed.

Example PushErr_pointer_drops_code_and_detail :
  Errors_PushErr {| Errors_Errors := [] |}
    (Some (DErrorPtr (Some (mkError ErrorCodeUnknownLayer "referenced layer not available"
                              (ILayer {| Unknown := {| BlobSum := "sha256:abcd" |} |})))))
  = Ret {| Errors_Errors :=
      [Some (DError (mkError ErrorCodeUnknown
                       "unknown layer: referenced layer not available" INil))] |}.
Proof. vm_compute. reflexivity. Qed.

(** *** Clear and Len *)

(** C9: after [Clear] the envelope holds nothing, [Len] is 0 and the
    envelope reads "<nil>", whatever it held before. *)
Theorem Clear_empties (errs : Errors) :
  Errors_Errors (Errors_Clear errs) = []
  ∧ Errors_Len (Errors_Clear errs) = 0
  ∧ Errors_Error (Errors_Clear errs) = Ret "<nil>".
Proof.
  unfold Errors_Clear, Errors_Len, Errors_Error. cbn [Errors_Errors].
  rewrite take_0. repeat split; reflexivity.
Qed.

Example Clear_after_pushes :
  (errs1 ← Errors_Push {| Errors_Errors := [] |} ErrorCodeInvalidDigest [];
   errs2 ← Errors_Push errs1 ErrorCodeInvalidLength [IInt 42];
   Ret (Errors_Len errs2, Errors_Len (Errors_Clear errs2), Errors_Error (Errors_Clear errs2)))
  = Ret (2, 0, Ret "<nil>").
Proof. vm_compute. reflexivity. Qed.

(** * Further properties *)

(** ** Text marshalling of codes *)

(** X1: marshalling a defined code to text and unmarshalling the text
    gives the code back, with a nil error both ways. *)
Theorem UnmarshalText_MarshalText (c : Z) :
  defined c →
  (ErrorCode_MarshalText c).2 = None
  ∧ ErrorCode_UnmarshalText (ErrorCode_MarshalText c).1 = (c, None).
Proof.
  intros Hc. split; [reflexivity|].
  unfold ErrorCode_UnmarshalText, ErrorCode_MarshalText, index_code. cbn [fst].
  apply String_defined, stringToErrorCode_lookup in Hc. rewrite Hc. reflexivity.
Qed.

Lemma UnmarshalText_MarshalText_witness :
  ErrorCode_UnmarshalText (ErrorCode_MarshalText ErrorCodeUnknownLayerUpload).1
  = (ErrorCodeUnknownLayerUpload, None).
Proof.
  apply (UnmarshalText_MarshalText ErrorCodeUnknownLayerUpload).
  vm_compute. split; discriminate.
Defined.

(** X2: [UnmarshalText] never reports an error and stores what
    [ParseErrorCode] returns: the zero value that the map index yields
    for an unknown text is the unknown code. *)
Theorem UnmarshalText_agrees_with_Parse (text : string) :
  ErrorCode_UnmarshalText text = (ParseErrorCode text, None).
Proof.
  unfold ErrorCode_UnmarshalText, ParseErrorCode, index_code.
  destruct (stringToErrorCode !! text); reflexivity.
Qed.

Lemma ParseErrorCode_range (s : string) : defined (ParseErrorCode s).
Proof.
  unfold ParseErrorCode. destruct (stringToErrorCode !! s) as [k|] eqn:E.
  - apply stringToErrorCode_lookup in E. apply errorCodeStrings_defined. eauto.
  - unfold defined, ErrorCodeUnknown, ErrorCodeUntrustedSignature. lia.
Qed.

(** X3: whatever the string, [ParseErrorCode] returns one of the twelve
    defined codes, and it returns a code other than the unknown one only
    for the canonical string of that code. *)
Theorem ParseErrorCode_defined (s : string) :
  defined (ParseErrorCode s)
  ∧ (ParseErrorCode s ≠ ErrorCodeUnknown → errorCodeStrings !! ParseErrorCode s = Some s).
Proof.
  split; [apply ParseErrorCode_range|].
  unfold ParseErrorCode. destruct (stringToErrorCode !! s) as [k|] eqn:E.
  - intros _. apply stringToErrorCode_lookup, E.
  - intros H. contradiction H. reflexivity.
Qed.

Lemma ParseErrorCode_defined_witness :
  errorCodeStrings !! ParseErrorCode "INVALID_NAME" = Some "INVALID_NAME".
Proof.
  apply (proj2 (ParseErrorCode_defined "INVALID_NAME")). vm_compute. discriminate.
Defined.

(** X4: the strings that survive parsing and printing are exactly the
    keys of the reverse table. *)
Theorem String_Parse_fixpoints (s : string) :
  ErrorCode_String (ParseErrorCode s) = s ↔ is_Some (stringToErrorCode !! s).
Proof.
  split.
  - intros Hs. exists (ParseErrorCode s). apply stringToErrorCode_lookup.
    rewrite <- Hs at 2. apply String_defined, ParseErrorCode_range.
  - intros [k Hk]. unfold ParseErrorCode. rewrite Hk.
    apply stringToErrorCode_lookup in Hk. unfold ErrorCode_String. rewrite Hk. reflexivity.
Qed.

Lemma String_Parse_fixpoints_witness :
  ErrorCode_String (ParseErrorCode "UNKNOWN_LAYER") = "UNKNOWN_LAYER".
Proof.
  apply (proj2 (String_Parse_fixpoints "UNKNOWN_LAYER")). vm_compute. eauto.
Defined.

(** X5: a code outside the defined set does not survive the round trip,
    it comes back as the unknown code; yet for every code, printing,
    parsing and printing again gives the first print. *)
Theorem String_Parse_String (c : Z) :
  (¬ defined c → ParseErrorCode (ErrorCode_String c) = ErrorCodeUnknown)
  ∧ ErrorCode_String (ParseErrorCode (ErrorCode_String c)) = ErrorCode_String c.
Proof.
  assert (H0 : defined ErrorCodeUnknown)
    by (unfold defined, ErrorCodeUnknown, ErrorCodeUntrustedSignature; lia).
  assert (Hdec : defined c ∨ ¬ defined c) by (unfold defined; lia).
  split.
  - intros Hc. rewrite (String_undefined c Hc). exact (ParseErrorCode_String _ H0).
  - destruct Hdec as [Hc|Hc].
    + rewrite (ParseErrorCode_String c Hc). reflexivity.
    + rewrite (String_undefined c Hc). reflexivity.
Qed.

Lemma String_Parse_String_witness : ParseErrorCode (ErrorCode_String 12) = ErrorCodeUnknown.
Proof.
  apply (proj1 (String_Parse_String 12)).
  unfold defined, ErrorCodeUntrustedSignature. lia.
Defined.

(** X6: in whatever order the loop of [init] visits the entries of the
    forward table, the table it builds maps a string to a code exactly
    when the forward table maps the code to the string. *)
Theorem init_builds_converse (visited : list (Z * string)) (s : string) (k : Z) :
  visited ≡ₚ map_to_list errorCodeStrings →
  init_loop visited !! s = Some k ↔ errorCodeStrings !! k = Some s.
Proof.
  intros Hperm. rewrite init_loop_lookup.
  - rewrite Hperm. apply elem_of_map_to_list.
  - rewrite Hperm, errorCodeStrings_to_list. apply errorCodeStrings_values_NoDup.
Qed.

Lemma init_builds_converse_witness :
  init_loop (reverse errorCodeStrings_entries) !! "INVALID_TAG" = Some ErrorCodeInvalidTag.
Proof.
  apply (init_builds_converse (reverse errorCodeStrings_entries)).
  - rewrite reverse_Permutation. symmetry. apply errorCodeStrings_to_list.
  - vm_compute. reflexivity.
Defined.

Lemma ErrorCode_String_nonempty (c : Z) : ErrorCode_String c ≠ "".
Proof.
  pose proof (ErrorCode_String_in_table c) as Hin.
  assert (H : Forall (λ s : string, s ≠ "") (errorCodeStrings_entries.*2))
    by (repeat constructor; discriminate).
  rewrite Forall_forall in H. apply H, Hin.
Qed.

Lemma ErrorCode_Message_nonempty (c : Z) : ErrorCode_Message c ≠ "".
Proof.
  unfold ErrorCode_Message. destruct (errorCodesMessages !! c) as [m|] eqn:E.
  - apply elem_of_list_to_map_2 in E.
    assert (H : Forall (λ kv : Z * string, kv.2 ≠ "") errorCodesMessages_entries)
      by (repeat constructor; discriminate).
    rewrite Forall_forall in H. exact (H _ E).
  - discriminate.
Qed.

(** X7: the two tables have the same keys, and neither the canonical
    string nor the message of any code, defined or not, is empty. *)
Theorem tables_cover_same_codes (c : Z) :
  (is_Some (errorCodeStrings !! c) ↔ is_Some (errorCodesMessages !! c))
  ∧ ErrorCode_String c ≠ ""
  ∧ ErrorCode_Message c ≠ "".
Proof.
  split; [|split].
  - rewrite errorCodeStrings_defined, errorCodesMessages_defined. reflexivity.
  - apply ErrorCode_String_nonempty.
  - apply ErrorCode_Message_nonempty.
Qed.

(** ** The textual form of an Error *)

Lemma split_at_first_colon (p1 p2 r1 r2 : string) :
  all_bytes not_colon p1 = true → all_bytes not_colon p2 = true →
  p1 ++ String ":" r1 = p2 ++ String ":" r2 → p1 = p2 ∧ r1 = r2.
Proof.
  revert p2. induction p1 as [|x p1 IH]; intros [|y p2] H1 H2 Heq.
  - injection Heq as ->. done.
  - rewrite append_cons in Heq. injection Heq as <- _.
    cbn [all_bytes] in H2. discriminate H2.
  - rewrite append_cons in Heq. injection Heq as -> _.
    cbn [all_bytes] in H1. discriminate H1.
  - rewrite !append_cons in Heq. injection Heq as -> Heq.
    cbn [all_bytes] in H1, H2.
    apply andb_true_iff in H1 as [_ H1]. apply andb_true_iff in H2 as [_ H2].
    destruct (IH p2 H1 H2 Heq) as [-> ->]. done.
Qed.

Lemma lower_spaced_no_colon (c : Z) :
  all_bytes not_colon (lower_spaced (ErrorCode_String c)) = true.
Proof.
  assert (H : Forall (λ s, all_bytes not_colon (lower_spaced s) = true)
                (errorCodeStrings_entries.*2)) by (repeat constructor).
  rewrite Forall_forall in H. apply H, ErrorCode_String_in_table.
Qed.

Lemma fmap_NoDup_inj_on {A B : Type} (f : A → B) (l : list A) (x y : A) :
  NoDup (f <$> l) → x ∈ l → y ∈ l → f x = f y → x = y.
Proof.
  induction l as [|a l IH]; intros Hnd Hx Hy Hf; [inversion Hx|].
  rewrite fmap_cons in Hnd. apply NoDup_cons in Hnd as [Ha Hnd].
  apply elem_of_cons in Hx as [->|Hx]; apply elem_of_cons in Hy as [->|Hy].
  - reflexivity.
  - exfalso. apply Ha. rewrite Hf. apply list_elem_of_fmap. eauto.
  - exfalso. apply Ha. rewrite <- Hf. apply list_elem_of_fmap. eauto.
  - apply IH; assumption.
Qed.

Lemma lower_spaced_canonical_inj (c1 c2 : Z) :
  lower_spaced (ErrorCode_String c1) = lower_spaced (ErrorCode_String c2) →
  ErrorCode_String c1 = ErrorCode_String c2.
Proof.
  apply (fmap_NoDup_inj_on lower_spaced (errorCodeStrings_entries.*2)).
  - apply (bool_decide_unpack _). vm_compute. reflexivity.
  - apply ErrorCode_String_in_table.
  - apply ErrorCode_String_in_table.
Qed.

(** X8: the textual form of an [Error] determines the canonical string
    of its code and its message, and nothing else: two errors read the
    same exactly when they agree on both; when the codes are defined the
    codes agree as well.  The detail never shows. *)
Theorem Error_Error_determines (e1 e2 : Error) :
  (Error_Error e1 = Error_Error e2
   ↔ ErrorCode_String (Code e1) = ErrorCode_String (Code e2) ∧ Message e1 = Message e2)
  ∧ (defined (Code e1) → defined (Code e2) → Error_Error e1 = Error_Error e2 →
     Code e1 = Code e2 ∧ Message e1 = Message e2).
Proof.
  assert (Hiff : Error_Error e1 = Error_Error e2
     ↔ ErrorCode_String (Code e1) = ErrorCode_String (Code e2) ∧ Message e1 = Message e2).
  { split.
    - unfold Error_Error, Sprintf_s_colon_s. rewrite !ToLower_Replace_underscore.
      intros Heq.
      change (?p ++ ": " ++ ?m) with (p ++ String ":" (String " " m)) in Heq.
      apply split_at_first_colon in Heq as [Hp Hm]; try apply lower_spaced_no_colon.
      split; [apply lower_spaced_canonical_inj, Hp | congruence].
    - intros [Hc Hm]. unfold Error_Error. rewrite Hc, Hm. reflexivity. }
  split; [exact Hiff|].
  intros H1 H2 Heq. apply Hiff in Heq as [Hc Hm]. split; [|exact Hm].
  rewrite <- (ParseErrorCode_String _ H1), <- (ParseErrorCode_String _ H2), Hc. reflexivity.
Qed.

Lemma Error_Error_determines_witness :
  Error_Error (mkError 12 "x" INil) = Error_Error (mkError ErrorCodeUnknown "x" (IInt 3))
  ∧ (Error_Error (mkError ErrorCodeInvalidTag "x" INil)
     = Error_Error (mkError ErrorCodeInvalidTag "x" (IInt 3)) →
     ErrorCodeInvalidTag = ErrorCodeInvalidTag ∧ "x" = "x").
Proof.
  split.
  - apply (proj1 (Error_Error_determines (mkError 12 "x" INil)
                    (mkError ErrorCodeUnknown "x" (IInt 3)))).
    split; vm_compute; reflexivity.
  - apply (proj2 (Error_Error_determines (mkError ErrorCodeInvalidTag "x" INil)
                    (mkError ErrorCodeInvalidTag "x" (IInt 3))));
      vm_compute; split; discriminate.
Defined.

(** ** Push and PushErr *)

Lemma Len_append_error (errs : Errors) (err : option dynerr) :
  Errors_Len (append_error errs err) = Errors_Len errs + 1.
Proof. unfold Errors_Len, append_error. cbn [Errors_Errors]. rewrite length_app. simpl. lia. Qed.

Lemma Push_returns_inv (errs : Errors) (code : Z) (details : list iface) (errs' : Errors) :
  Errors_Push errs code details = Ret errs' →
  (details = [] ∧ errs' = append_error errs (pushed code INil))
  ∨ (∃ d, details = [d] ∧ (∀ e, d ≠ IErr e) ∧ errs' = append_error errs (pushed code d))
  ∨ (∃ e s, details = [IErr e] ∧ dynerr_Error e = Ret s
            ∧ errs' = append_error errs (pushed code (IString s))).
Proof.
  intros H. destruct details as [|d [|d' details]].
  - left. rewrite Push_none in H. injection H as <-. done.
  - destruct d as [|e| | |].
    2:{ right; right. rewrite Push_one_error in H.
        destruct (dynerr_Error e) as [s|p] eqn:E; [|discriminate H].
        injection H as <-. eauto. }
    all: right; left; rewrite Push_one_other in H by discriminate;
      injection H as <-; eexists; split; [reflexivity|]; split; [discriminate|reflexivity].
  - rewrite Push_many in H by (simpl; lia). discriminate H.
Qed.

(** X9: when [Push] returns, it was given at most one detail, the
    envelope has grown by exactly one element at the end, its earlier
    elements are as before, and the new element is an [Error] with the
    given code and that code's message whose detail is never an error
    value. *)
Theorem Push_appends_one (errs : Errors) (code : Z) (details : list iface) (errs' : Errors) :
  Errors_Push errs code details = Ret errs' →
  (length details ≤ 1)%nat
  ∧ Errors_Len errs' = Errors_Len errs + 1
  ∧ ∃ detail : iface,
      Errors_Errors errs'
      = (Errors_Errors errs
         ++ [Some (DError (mkError code (ErrorCode_Message code) detail))])%list
      ∧ ∀ e, detail ≠ IErr e.
Proof.
  intros H. apply Push_returns_inv in H as [[-> ->]|[(d & -> & Hd & ->)|(e & s & -> & _ & ->)]].
  - split; [simpl; lia|]. split; [apply Len_append_error|].
    exists INil. split; [reflexivity | discriminate].
  - split; [simpl; lia|]. split; [apply Len_append_error|].
    exists d. split; [reflexivity | exact Hd].
  - split; [simpl; lia|]. split; [apply Len_append_error|].
    exists (IString s). split; [reflexivity | discriminate].
Qed.

Lemma Push_appends_one_witness :
  Errors_Len {| Errors_Errors :=
    [None; Some (DError (mkError ErrorCodeInvalidName "manifest name did not match URI"
                           (IString "invalid tag: boom")))] |} = 2.
Proof.
  apply (proj1 (proj2 (Push_appends_one {| Errors_Errors := [None] |} ErrorCodeInvalidName
    [IErr (DError (mkError ErrorCodeInvalidTag "boom" INil))] _ ltac:(vm_compute; reflexivity)))).
Defined.

(** X10: the [Error] that a returning [Push] stores is serialized with
    the canonical string of the code and always with a message member,
    the code's message; the detail member is written exactly when one
    detail was given and it was not nil. *)
Theorem Push_serialized (errs : Errors) (code : Z) (details : list iface) (errs' : Errors) :
  Errors_Push errs code details = Ret errs' →
  ∃ e : Error,
    last (Errors_Errors errs') = Some (Some (DError e))
    ∧ member "code" (Error_members e) = Some (JText (ErrorCode_String code))
    ∧ member "message" (Error_members e) = Some (JString (ErrorCode_Message code))
    ∧ (is_Some (member "detail" (Error_members e)) ↔ ∃ d, details = [d] ∧ d ≠ INil).
Proof.
  intros H.
  assert (Hmembers : ∀ detail,
    member "code" (Error_members (mkError code (ErrorCode_Message code) detail))
      = Some (JText (ErrorCode_String code))
    ∧ member "message" (Error_members (mkError code (ErrorCode_Message code) detail))
      = Some (JString (ErrorCode_Message code))
    ∧ (is_Some (member "detail" (Error_members (mkError code (ErrorCode_Message code) detail)))
       ↔ detail ≠ INil)).
  { intros detail. pose proof (ErrorCode_Message_nonempty code) as Hm.
    unfold Error_members, emit, member. cbn [Code Message Detail].
    destruct (ErrorCode_Message code) as [|x m]; [done|].
    destruct detail; (split; [reflexivity|]; split; [reflexivity|]);
      cbn; split; try done; try (intros _; eauto); intros [? [=]]. }
  apply Push_returns_inv in H as [[-> ->]|[(d & -> & Hd & ->)|(e & s & -> & _ & ->)]];
    eexists; (split; [apply last_snoc|]);
    destruct (Hmembers INil) as (Hc0 & Hm0 & Hd0);
    try destruct (Hmembers d) as (Hc1 & Hm1 & Hd1);
    try destruct (Hmembers (IString s)) as (Hc2 & Hm2 & Hd2).
  - repeat split; try assumption.
    + intros Hs. apply Hd0 in Hs. done.
    + intros (d & [=] & _).
  - repeat split; try assumption.
    + intros Hs. exists d. split; [reflexivity | apply Hd1, Hs].
    + intros (d' & [= <-] & Hne). apply Hd1, Hne.
  - repeat split; try assumption.
    + intros _. eexists. split; [reflexivity | discriminate].
    + intros _. apply Hd2. discriminate.
Qed.

Lemma Push_serialized_witness :
  ∃ e : Error,
    last [Some (DError (mkError ErrorCodeUnknownLayer "referenced layer not available"
                          (ILayer {| Unknown := {| BlobSum := "sha256:abcd" |} |})))]
    = Some (Some (DError e))
    ∧ member "message" (Error_members e) = Some (JString "referenced layer not available").
Proof.
  destruct (Push_serialized {| Errors_Errors := [] |} ErrorCodeUnknownLayer
              [ILayer {| Unknown := {| BlobSum := "sha256:abcd" |} |}] _
              ltac:(vm_compute; reflexivity)) as (e & Hlast & _ & Hm & _).
  exists e. split; [exact Hlast | exact Hm].
Defined.

(** ** Envelopes built through the methods *)

Lemma homogeneous_append (errs : Errors) (e : Error) :
  homogeneous errs → homogeneous (append_error errs (Some (DError e))).
Proof.
  unfold homogeneous, append_error. cbn [Errors_Errors]. intros H.
  apply Forall_app. split; [exact H|]. repeat constructor. eexists; reflexivity.
Qed.

Lemma PushErr_homogeneous (errs : Errors) (err : option dynerr) (errs' : Errors) :
  homogeneous errs → Errors_PushErr errs err = Ret errs' → homogeneous errs'.
Proof.
  intros Hh H. destruct (classic_Error_value err) as [[e ->]|Hne].
  - injection H as <-. apply homogeneous_append, Hh.
  - rewrite (PushErr_default _ _ Hne) in H.
    destruct (error_Error err) as [s|p]; [|discriminate H].
    injection H as <-. apply homogeneous_append, Hh.
Qed.

Lemma do_call_homogeneous (errs : Errors) (c : call) (errs' : Errors) :
  homogeneous errs → do_call errs c = Ret errs' → homogeneous errs'.
Proof.
  intros Hh H. destruct c as [code details|err|]; cbn [do_call] in H.
  - apply Push_returns_inv in H as [[_ ->]|[(d & _ & _ & ->)|(e & s & _ & _ & ->)]];
      apply homogeneous_append, Hh.
  - exact (PushErr_homogeneous _ _ _ Hh H).
  - injection H as <-. unfold homogeneous, Errors_Clear. cbn [Errors_Errors].
    rewrite take_0. constructor.
Qed.

Lemma descriptions_homogeneous (l : list (option dynerr)) :
  Forall is_Error_value l → returns (descriptions l).
Proof.
  induction 1 as [|err l [e ->] _ [ds IH]]; [eexists; reflexivity|].
  exists (Error_Error e :: ds). cbn [descriptions error_Error dynerr_Error].
  cbn [mbind result_bind bind]. rewrite IH. reflexivity.
Qed.

Lemma Errors_Error_homogeneous (errs : Errors) :
  homogeneous errs → returns (Errors_Error errs).
Proof.
  destruct errs as [[|err1 [|err2 l]]]; unfold homogeneous; cbn [Errors_Errors]; intros H.
  - eexists; reflexivity.
  - apply Forall_cons in H as [[e ->] _]. eexists; reflexivity.
  - destruct (descriptions_homogeneous _ H) as [ds Hds].
    rewrite (Errors_Error_many _ _ _ ds Hds). eexists; reflexivity.
Qed.

(** X11: an envelope that holds only [Error] values keeps doing so under
    any sequence of [Push], [PushErr] and [Clear] calls that return, and
    the [Error()] of such an envelope never panics. *)
Theorem run_keeps_homogeneous (calls : list call) (errs errs' : Errors) :
  homogeneous errs → run calls errs = Ret errs' →
  homogeneous errs' ∧ returns (Errors_Error errs').
Proof.
  revert errs. induction calls as [|c calls IH]; intros errs Hh H.
  - injection H as <-. split; [exact Hh | apply Errors_Error_homogeneous, Hh].
  - cbn [run] in H. destruct (do_call errs c) as [errs1|p] eqn:E; [|discriminate H].
    cbn [mbind result_bind bind] in H.
    exact (IH errs1 (do_call_homogeneous _ _ _ Hh E) H).
Qed.

Lemma run_keeps_homogeneous_witness :
  returns (Errors_Error {| Errors_Errors :=
    [ Some (DError (mkError ErrorCodeUnknown "EOF" INil));
      Some (DError (mkError ErrorCodeInvalidTag "manifest tag did not match URI" (IInt 3))) ] |}).
Proof.
  apply (run_keeps_homogeneous
    [ CallPush ErrorCodeInvalidName []; CallClear;
      CallPushErr (Some (Foreign (Ret "EOF"))); CallPush ErrorCodeInvalidTag [IInt 3] ]
    {| Errors_Errors := [] |}).
  - constructor.
  - vm_compute. reflexivity.
Defined.

(** ** Error() of the envelope *)

Lemma Errors_Error_two (err1 err2 : option dynerr) (l : list (option dynerr)) :
  Errors_Error {| Errors_Errors := err1 :: err2 :: l |}
  = Errors_Error_loop ("errors:" ++ LF) (err1 :: err2 :: l).
Proof.
  unfold Errors_Error, Errors_Len. cbn [Errors_Errors length].
  replace (Z.of_nat (S (S (length l)))) with (Z.pos (Pos.of_succ_nat (S (length l)))) by lia.
  destruct (Pos.of_succ_nat (S (length l))) eqn:E; try lia; reflexivity.
Qed.

Lemma Errors_Error_loop_panic (l : list (option dynerr)) (msg : string) (p : panic) :
  Errors_Error_loop msg l = Panicked p ↔ first_panic l = Some p.
Proof.
  revert msg. induction l as [|err l IH]; intros msg; cbn [Errors_Error_loop first_panic].
  - split; discriminate.
  - destruct (error_Error err) as [s|q]; cbn [mbind result_bind bind].
    + apply IH.
    + split; intros [= ->]; reflexivity.
Qed.

(** X12: [Error()] of the envelope panics exactly when the [Error()] of
    one of its elements does, and with the panic of the first such
    element; no other panic, in particular no index out of range, comes
    from the envelope itself. *)
Theorem Errors_Error_panics_iff (errs : Errors) (p : panic) :
  Errors_Error errs = Panicked p ↔ first_panic (Errors_Errors errs) = Some p.
Proof.
  destruct errs as [[|err1 [|err2 l]]]; cbn [Errors_Errors].
  - split; discriminate.
  - change (Errors_Error {| Errors_Errors := [err1] |}) with (error_Error err1).
    cbn [first_panic]. destruct (error_Error err1); split; congruence.
  - rewrite Errors_Error_two. apply Errors_Error_loop_panic.
Qed.

Lemma Errors_Error_panics_iff_witness :
  Errors_Error {| Errors_Errors :=
    [ Some (DError (mkError ErrorCodeInvalidTag "x" INil));
      Some (DBlobNotFound None);
      Some (Foreign (Panicked (PanicString "later"))) ] |} = Panicked NilDereference.
Proof.
  apply (proj2 (Errors_Error_panics_iff _ NilDereference)). reflexivity.
Defined.

Lemma all_bytes_middle (P : ascii → bool) (a b : string) (c : ascii) :
  all_bytes P (a ++ String c b) = true → P c = true.
Proof.
  induction a as [|x a IH].
  - cbn [String.append all_bytes]. change ("" ++ String c b) with (String c b).
    cbn [all_bytes]. intros H. apply andb_true_iff in H as [H _]. exact H.
  - rewrite append_cons. cbn [all_bytes]. intros H.
    apply andb_true_iff in H as [_ H]. exact (IH H).
Qed.

Lemma Error_Error_not_nil (e : Error) : Error_Error e ≠ "<nil>".
Proof.
  intros H. assert (Hc : all_bytes not_colon (Error_Error e) = true) by (rewrite H; reflexivity).
  unfold Error_Error, Sprintf_s_colon_s in Hc.
  change (?p ++ ": " ++ ?m) with (p ++ String ":" (String " " m)) in Hc.
  apply all_bytes_middle in Hc. discriminate Hc.
Qed.

(** X13: for an envelope that holds only [Error] values, reading "<nil>"
    means being empty: [Error()] returns "<nil>" exactly when [Len()] is
    0. *)
Theorem nil_reading_means_empty (errs : Errors) :
  homogeneous errs →
  Errors_Error errs = Ret "<nil>" ↔ Errors_Len errs = 0.
Proof.
  destruct errs as [[|err1 [|err2 l]]]; unfold homogeneous; cbn [Errors_Errors]; intros Hh.
  - split; reflexivity.
  - apply Forall_cons in Hh as [[e ->] _]. split.
    + intros [= H]. exfalso. exact (Error_Error_not_nil e H).
    + unfold Errors_Len. cbn. discriminate.
  - destruct (descriptions_homogeneous _ Hh) as [ds Hds].
    rewrite (Errors_Error_many _ _ _ ds Hds). split.
    + intros [=].
    + unfold Errors_Len. cbn [Errors_Errors length]. lia.
Qed.

Lemma nil_reading_means_empty_witness :
  Errors_Error {| Errors_Errors := [] |} = Ret "<nil>"
  ∧ Errors_Error {| Errors_Errors := [Some (Foreign (Ret "<nil>"))] |} = Ret "<nil>".
Proof.
  split; [|reflexivity].
  apply (proj2 (nil_reading_means_empty {| Errors_Errors := [] |} ltac:(constructor))).
  reflexivity.
Defined.

(** X14: [PushErr] returns exactly when the [Error()] of its argument
    does not panic; it panics with the argument's own panic, and for the
    nil interface with a nil dereference.  When it returns, [Len()] has
    grown by one. *)
Theorem PushErr_returns_iff (errs : Errors) (err : option dynerr) :
  (returns (Errors_PushErr errs err) ↔ returns (error_Error err))
  ∧ (∀ p, Errors_PushErr errs err = Panicked p ↔ error_Error err = Panicked p)
  ∧ (∀ errs', Errors_PushErr errs err = Ret errs' → Errors_Len errs' = Errors_Len errs + 1)
  ∧ Errors_PushErr errs None = Panicked NilDereference.
Proof.
  destruct (classic_Error_value err) as [[e ->]|Hne].
  - split; [|split; [|split]].
    + split; intros _; eexists; reflexivity.
    + intros p. split; discriminate.
    + intros errs' [= <-]. apply Len_append_error.
    + reflexivity.
  - rewrite (PushErr_default _ _ Hne).
    destruct (error_Error err) as [s|q]; cbn [mbind result_bind bind].
    + split; [|split; [|split]].
      * split; intros _; eexists; reflexivity.
      * intros p. split; discriminate.
      * intros errs' [= <-]. apply Len_append_error.
      * reflexivity.
    + split; [|split; [|split]].
      * split; intros [? [=]].
      * intros p. split; intros [= ->]; reflexivity.
      * intros errs' [=].
      * reflexivity.
Qed.

Lemma PushErr_returns_iff_witness :
  returns (Errors_PushErr {| Errors_Errors := [] |}
             (Some (DBlobUploadInvalidRange
                (Some {| buir_Location := "/v2/x"; buir_LastValidRange := -1; buir_BlobSize := 0 |}))))
  ∧ Errors_PushErr {| Errors_Errors := [] |} (Some (DBlobUploadNotFound None))
    = Panicked NilDereference.
Proof.
  split.
  - apply (proj2 (proj1 (PushErr_returns_iff {| Errors_Errors := [] |} _))).
    eexists. reflexivity.
  - apply (proj2 (proj1 (proj2 (PushErr_returns_iff {| Errors_Errors := [] |} _)) NilDereference)).
    reflexivity.
Defined.

(** ** The serialized envelope *)

(** X15: the envelope is written with an errors member exactly when
    [Len()] is not 0: never right after [Clear], always right after a
    [Push] or [PushErr] that returned, and then the member lists the
    elements in the order they were pushed. *)
Theorem Errors_members_iff_nonempty (errs : Errors) (c : call) (errs' : Errors) :
  (Errors_members errs = [] ↔ Errors_Len errs = 0)
  ∧ (Errors_Len errs ≠ 0 → Errors_members errs = [("errors", JArray (Errors_Errors errs))])
  ∧ Errors_members (Errors_Clear errs) = []
  ∧ (c ≠ CallClear → do_call errs c = Ret errs' →
     ∃ e : Error, Errors_members errs'
       = [("errors", JArray (Errors_Errors errs ++ [Some (DError e)]))]).
Proof.
  assert (Hne : ∀ l x, Errors_members {| Errors_Errors := l ++ [x] |}
                       = [("errors", JArray (l ++ [x]))]).
  { intros l x. unfold Errors_members, slice_isEmptyValue. cbn [Errors_Errors].
    rewrite length_app. cbn [length]. rewrite Nat.add_1_r. reflexivity. }
  split; [|split; [|split]].
  - unfold Errors_members, Errors_Len, slice_isEmptyValue.
    destruct (Errors_Errors errs); cbn; split; (reflexivity || discriminate || lia).
  - unfold Errors_members, Errors_Len, slice_isEmptyValue.
    destruct (Errors_Errors errs); cbn; [lia | reflexivity].
  - reflexivity.
  - intros Hc H. destruct c as [code details|err|]; [| |done]; cbn [do_call] in H.
    + apply Push_returns_inv in H as [[_ ->]|[(d & _ & _ & ->)|(e & s & _ & _ & ->)]];
        eexists; apply Hne.
    + destruct (classic_Error_value err) as [[e ->]|Hnv].
      * injection H as <-. exists e. apply Hne.
      * rewrite (PushErr_default _ _ Hnv) in H.
        destruct (error_Error err) as [s|p]; [|discriminate H].
        injection H as <-. eexists. apply Hne.
Qed.

Lemma Errors_members_iff_nonempty_witness :
  ∃ e : Error, Errors_members {| Errors_Errors := [Some (DError (mkError 0 "EOF" INil))] |}
    = [("errors", JArray ([] ++ [Some (DError e)]))].
Proof.
  apply (proj2 (proj2 (proj2 (Errors_members_iff_nonempty {| Errors_Errors := [] |}
           (CallPushErr (Some (Foreign (Ret "EOF")))) _)))).
  - discriminate.
  - reflexivity.
Defined.

(** ** The backend error types *)

Lemma prefix_cancel (p a b : string) : p ++ a = p ++ b → a = b.
Proof.
  induction p as [|x p IH]; [exact id|].
  rewrite !append_cons. intros [= H]. exact (IH H).
Qed.

(** X16: for the three backend errors with a single field the message
    determines the value; for the two with a name and a second string
    field it does not: different values can read the same. *)
Theorem backend_messages_and_fields :
  (∀ e1 e2, RepositoryNotFoundError_Error e1 = RepositoryNotFoundError_Error e2 → e1 = e2)
  ∧ (∀ e1 e2, BlobUploadNotFoundError_Error e1 = BlobUploadNotFoundError_Error e2 → e1 = e2)
  ∧ (∀ e1 e2, UnexpectedHTTPStatusError_Error e1 = UnexpectedHTTPStatusError_Error e2 → e1 = e2)
  ∧ (∃ e1 e2, e1 ≠ e2
       ∧ ImageManifestNotFoundError_Error e1 = ImageManifestNotFoundError_Error e2)
  ∧ (∃ e1 e2, e1 ≠ e2 ∧ BlobNotFoundError_Error e1 = BlobNotFoundError_Error e2).
Proof.
  split; [|split; [|split; [|split]]].
  - intros [n1] [n2] H. apply prefix_cancel in H. cbn in H. congruence.
  - intros [n1] [n2] H. apply prefix_cancel in H. cbn in H. congruence.
  - intros [n1] [n2] H. apply prefix_cancel in H. cbn in H. congruence.
  - exists {| imnf_Name := "a, Tag: b"; imnf_Tag := "c" |},
           {| imnf_Name := "a"; imnf_Tag := "b, Tag: c" |}.
    split; [discriminate | reflexivity].
  - exists {| bnf_Name := "a, Digest: b"; bnf_Digest := "c" |},
           {| bnf_Name := "a"; bnf_Digest := "b, Digest: c" |}.
    split; [discriminate | reflexivity].
Qed.

Lemma backend_messages_and_fields_witness :
  {| rnf_Name := "library/busybox" |} = {| rnf_Name := "library/busybox" |}.
Proof.
  apply (proj1 backend_messages_and_fields). reflexivity.
Defined.

Lemma first_bytes (n : nat) (p a : string) :
  (n ≤ String.length p)%nat → substring 0 n (p ++ a) = substring 0 n p.
Proof.
  revert p. induction n as [|n IH]; intros p Hn.
  - destruct p; [destruct a|]; reflexivity.
  - destruct p as [|x p]; [simpl in Hn; lia|].
    rewrite append_cons. cbn [substring]. rewrite IH by (simpl in Hn; lia). reflexivity.
Qed.

Lemma Ret_inj {A : Type} (a b : A) : Ret a = Ret b → a = b.
Proof. intros [= H]. exact H. Qed.

(** X17: the message tells the backend type: two backend errors of
    different types never have the same message. *)
Theorem backend_message_tells_type (d1 d2 : dynerr) (k1 k2 : nat) (s : string) :
  backend_kind d1 = Some k1 → backend_kind d2 = Some k2 →
  dynerr_Error d1 = Ret s → dynerr_Error d2 = Ret s →
  k1 = k2.
Proof.
  intros Hk1 Hk2 H1 H2.
  destruct d1 as [?|?|[e1|]|[e1|]|[e1|]|[e1|]|[e1|]|[e1|]|?]; try discriminate;
  destruct d2 as [?|?|[e2|]|[e2|]|[e2|]|[e2|]|[e2|]|[e2|]|?]; try discriminate;
  cbn [backend_kind] in Hk1, Hk2; injection Hk1 as <-; injection Hk2 as <-;
  try reflexivity; exfalso;
  cbn [dynerr_Error through] in H1, H2; rewrite <- H1 in H2; apply Ret_inj in H2;
  apply (f_equal (substring 0 9)) in H2;
  unfold RepositoryNotFoundError_Error, ImageManifestNotFoundError_Error,
    BlobNotFoundError_Error, BlobUploadNotFoundError_Error,
    BlobUploadInvalidRangeError_Error, UnexpectedHTTPStatusError_Error in H2;
  rewrite !first_bytes in H2 by (simpl; lia); discriminate H2.
Qed.

Lemma backend_message_tells_type_witness : 2%nat = 2%nat.
Proof.
  apply (backend_message_tells_type
    (DBlobNotFound (Some {| bnf_Name := "a"; bnf_Digest := "sha256:00" |}))
    (DBlobNotFound (Some {| bnf_Name := "a"; bnf_Digest := "sha256:00" |}))
    2 2 "No blob found with Name: a, Digest: sha256:00"); reflexivity.
Defined.

(** ** The slice behind the envelope *)

Lemma elements_length (h : list (list (option dynerr))) (s : slice) :
  fits (h, s) → length (elements h s) = s_len s.
Proof.
  intros [Hle Harr]. cbn [fst snd] in *. unfold elements.
  destruct (decide (s_cap s = 0)%nat) as [E|E].
  - replace (s_len s) with 0%nat by lia. reflexivity.
  - destruct Harr as [_ Hlen]; [lia|]. apply length_take_le. lia.
Qed.

Section BackingProperties.

Variable grow : nat → nat.
Hypothesis grow_room : ∀ n, (n ≤ grow n)%nat.

Lemma slice_append_spec (h : list (list (option dynerr))) (s : slice) (x : option dynerr) :
  fits (h, s) →
  fits (slice_append grow h s x)
  ∧ elements (slice_append grow h s x).1 (slice_append grow h s x).2
    = (elements h s ++ [x])%list.
Proof.
  intros Hfits. pose proof (elements_length h s Hfits) as Hlen.
  destruct Hfits as [Hle Harr]. cbn [fst snd] in *.
  unfold slice_append. destruct (s_len s <? s_cap s)%nat eqn:E.
  - apply Nat.ltb_lt in E. destruct Harr as [Ha Hc]; [lia|].
    assert (Harr' : array_of (<[s_array s:=<[s_len s:=x]> (array_of h s)]> h)
                      {| s_array := s_array s; s_len := S (s_len s); s_cap := s_cap s |}
                    = <[s_len s:=x]> (array_of h s)).
    { unfold array_of at 1. cbn [s_array]. rewrite list_lookup_insert_eq by exact Ha.
      reflexivity. }
    split.
    + split; cbn [fst snd s_len s_cap s_array]; [lia|]. intros _.
      rewrite length_insert. split; [exact Ha|].
      rewrite Harr', length_insert. exact Hc.
    + cbn [fst snd]. unfold elements at 1. rewrite Harr'. cbn [s_len].
      rewrite (take_S_r _ _ x) by (apply list_lookup_insert_eq; lia).
      rewrite take_insert_ge by lia. reflexivity.
  - apply Nat.ltb_ge in E.
    assert (Harr' : array_of (h ++ [elements h s ++ x
                         :: replicate (grow (S (s_len s)) - S (s_len s)) None])%list
                      {| s_array := length h; s_len := S (s_len s);
                         s_cap := grow (S (s_len s)) |}
                    = (elements h s ++ x
                         :: replicate (grow (S (s_len s)) - S (s_len s)) None)%list).
    { unfold array_of. cbn [s_array]. rewrite list_lookup_middle by reflexivity.
      reflexivity. }
    pose proof (grow_room (S (s_len s))) as Hg.
    split.
    + split; cbn [fst snd s_len s_cap s_array]; [exact Hg|]. intros _.
      rewrite length_app. cbn [length]. split; [lia|].
      rewrite Harr', length_app. cbn [length]. rewrite length_replicate, Hlen. lia.
    + cbn [fst snd]. unfold elements at 1. rewrite Harr'. cbn [s_len].
      rewrite cons_middle, app_assoc.
      apply take_app_length'. rewrite length_app, Hlen. simpl. lia.
Qed.

Lemma slice_append_agree (st : list (list (option dynerr)) * slice) (x : option dynerr) :
  fits st →
  agree (Ret (slice_append grow st.1 st.2 x)) (Ret (append_error (shown st) x)).
Proof.
  destruct st as [h s]. intros Hfits. cbn [fst snd agree].
  destruct (slice_append_spec h s x Hfits) as [Hf He].
  split; [exact Hf|]. unfold shown, append_error. cbn [Errors_Errors fst snd].
  rewrite He. reflexivity.
Qed.

Lemma Backed_PushErr_agree (st : list (list (option dynerr)) * slice) (err : option dynerr) :
  fits st → agree (Backed_PushErr grow st err) (Errors_PushErr (shown st) err).
Proof.
  intros Hfits. destruct err as [[e| | | | | | | |]|];
    cbn [Backed_PushErr Errors_PushErr];
    try (apply slice_append_agree, Hfits);
    destruct (error_Error _) as [m|q]; cbn [mbind result_bind bind];
    first [apply slice_append_agree, Hfits | reflexivity].
Qed.

Lemma Backed_Push_agree (st : list (list (option dynerr)) * slice) (code : Z)
    (details : list iface) :
  fits st → agree (Backed_Push grow st code details) (Errors_Push (shown st) code details).
Proof.
  intros Hfits. destruct details as [|d [|d' details]].
  - apply (Backed_PushErr_agree st (pushed code INil) Hfits).
  - destruct d as [|e| | |];
      try (apply (Backed_PushErr_agree st (pushed code _) Hfits)).
    unfold Backed_Push, Errors_Push.
    cbn [length Nat.ltb Nat.leb lookup list_lookup default from_option id assert_error error_Error].
    destruct (dynerr_Error e) as [m|p]; cbn [mbind result_bind bind].
    + apply (Backed_PushErr_agree st (pushed code (IString m)) Hfits).
    + reflexivity.
  - reflexivity.
Qed.

Lemma Backed_Clear_agree (st : list (list (option dynerr)) * slice) :
  fits st → agree (Ret (Backed_Clear st)) (Ret (Errors_Clear (shown st))).
Proof.
  destruct st as [h s]. intros [Hle Harr]. cbn [fst snd] in *. split.
  - split; cbn [Backed_Clear fst snd reslice_0 s_len s_cap s_array]; [lia | exact Harr].
  - reflexivity.
Qed.

Lemma Backed_call_agree (st : list (list (option dynerr)) * slice) (c : call) :
  fits st → agree (Backed_call grow st c) (do_call (shown st) c).
Proof.
  intros Hfits. destruct c as [code details|err|]; cbn [Backed_call do_call].
  - apply Backed_Push_agree, Hfits.
  - apply Backed_PushErr_agree, Hfits.
  - apply Backed_Clear_agree, Hfits.
Qed.

(** X18: the list of elements is a sound account of the slice: for any
    growth policy of [append] that leaves room, and any sequence of
    [Push], [PushErr] and [Clear] calls, the run on the slice and its
    arrays panics exactly when the run on the list does, with the same
    panic, and otherwise ends with a slice that shows the list. *)
Theorem Backed_run_refines (calls : list call) (st : list (list (option dynerr)) * slice) :
  fits st → agree (Backed_run grow calls st) (run calls (shown st)).
Proof.
  revert st. induction calls as [|c calls IH]; intros st Hfits.
  - cbn [Backed_run run agree]. split; [exact Hfits | reflexivity].
  - cbn [Backed_run run]. pose proof (Backed_call_agree st c Hfits) as Hc.
    destruct (Backed_call grow st c) as [st'|p]; destruct (do_call (shown st) c) as [errs'|q];
      cbn [agree] in Hc; try contradiction; cbn [mbind result_bind bind].
    + destruct Hc as [Hf <-]. apply IH, Hf.
    + exact Hc.
Qed.

(** X19: [Clear] keeps the array.  On an envelope that holds at least
    one element, the [PushErr] that follows a [Clear] allocates nothing
    and writes into the first slot of the same array, so a copy of
    [errs.Errors] taken before the [Clear] now shows the new error in
    place of its first element, its other elements unchanged. *)
Theorem Clear_then_push_overwrites (h : list (list (option dynerr))) (s : slice) (e : Error) :
  fits (h, s) → (0 < s_len s)%nat →
  ∃ h' s',
    Backed_PushErr grow (Backed_Clear (h, s)) (Some (DError e)) = Ret (h', s')
    ∧ length h' = length h
    ∧ s_array s' = s_array s ∧ s_cap s' = s_cap s
    ∧ elements h' s' = [Some (DError e)]
    ∧ elements h' s = <[0%nat := Some (DError e)]> (elements h s)
    ∧ elements h' s !! 0%nat = Some (Some (DError e)).
Proof.
  intros Hfits Hlen. pose proof (elements_length h s Hfits) as Hel.
  destruct Hfits as [Hle Harr]. cbn [fst snd] in *.
  destruct Harr as [Ha Hc]; [lia|].
  cbn [Backed_PushErr Backed_Clear fst snd]. unfold slice_append.
  cbn [reslice_0 s_len s_cap s_array].
  assert (E : (0 <? s_cap s)%nat = true) by (apply Nat.ltb_lt; lia). rewrite E.
  eexists _, _. split; [reflexivity|].
  assert (Harr' : ∀ t, s_array t = s_array s →
            array_of (<[s_array s:=<[0%nat:=Some (DError e)]> (array_of h (reslice_0 s))]> h) t
            = <[0%nat:=Some (DError e)]> (array_of h s)).
  { intros t Ht. unfold array_of at 1. rewrite Ht, list_lookup_insert_eq by exact Ha.
    reflexivity. }
  assert (Hs : elements (<[s_array s:=<[0%nat:=Some (DError e)]> (array_of h (reslice_0 s))]> h) s
               = <[0%nat:=Some (DError e)]> (elements h s)).
  { unfold elements at 1. rewrite Harr' by reflexivity. apply take_insert_lt, Hlen. }
  split; [apply length_insert|]. split; [reflexivity|]. split; [reflexivity|].
  split; [|split].
  - unfold elements. rewrite Harr' by reflexivity. cbn [s_len].
    destruct (array_of h s); [simpl in Hc; lia | reflexivity].
  - exact Hs.
  - rewrite Hs. apply list_lookup_insert_eq. lia.
Qed.

(** X20: without a [Clear] in between, a push never disturbs what is
    already held: after [append], any slice that fitted the heap before
    and that, if it shares the array, is no longer than the slice
    appended to, shows the same elements as before. *)
Theorem append_keeps_earlier_slices (h : list (list (option dynerr))) (s t : slice)
    (x : option dynerr) :
  fits (h, s) → fits (h, t) →
  (s_array t = s_array s → (s_len t ≤ s_len s)%nat) →
  elements (slice_append grow h s x).1 t = elements h t.
Proof.
  intros [Hle Harr] [Hlet Harrt] Hshare. cbn [fst snd] in *.
  destruct (decide (s_len t = 0)%nat) as [Et|Et].
  { unfold elements. rewrite Et. reflexivity. }
  destruct Harrt as [Hat Hct]; [lia|].
  unfold slice_append. destruct (s_len s <? s_cap s)%nat eqn:E; cbn [fst].
  - unfold elements, array_of.
    destruct (decide (s_array t = s_array s)) as [Es|Es].
    + rewrite Es, list_lookup_insert_eq by (rewrite <- Es; exact Hat).
      cbn [default from_option id]. rewrite take_insert_ge by (apply Hshare, Es).
      reflexivity.
    + rewrite list_lookup_insert_ne by congruence. reflexivity.
  - unfold elements, array_of. rewrite lookup_app_l by exact Hat. reflexivity.
Qed.

End BackingProperties.

Lemma Backed_run_refines_witness :
  agree (Backed_run (λ n, 2 * n)%nat
           [ CallPush ErrorCodeInvalidDigest []; CallPush ErrorCodeInvalidTag [IInt 1];
             CallClear; CallPushErr (Some (Foreign (Ret "EOF"))) ]
           ([], nil_slice))
        (Ret {| Errors_Errors := [Some (DError (mkError ErrorCodeUnknown "EOF" INil))] |}).
Proof.
  apply (Backed_run_refines (λ n, 2 * n)%nat ltac:(intros n; cbv beta; lia)
    [ CallPush ErrorCodeInvalidDigest []; CallPush ErrorCodeInvalidTag [IInt 1];
      CallClear; CallPushErr (Some (Foreign (Ret "EOF"))) ] ([], nil_slice)).
  split; cbn; [lia | intros; lia].
Defined.

Lemma Clear_then_push_overwrites_witness :
  ∃ h' s',
    Backed_PushErr S
      (Backed_Clear ([[Some (Foreign (Ret "first")); Some (Foreign (Ret "second"))]],
                     {| s_array := 0; s_len := 2; s_cap := 2 |}))
      (Some (DError (mkError ErrorCodeInvalidTag "third" INil))) = Ret (h', s')
    ∧ elements h' {| s_array := 0; s_len := 2; s_cap := 2 |}
      = [Some (DError (mkError ErrorCodeInvalidTag "third" INil)); Some (Foreign (Ret "second"))].
Proof.
  destruct (Clear_then_push_overwrites S
              [[Some (Foreign (Ret "first")); Some (Foreign (Ret "second"))]]
              {| s_array := 0; s_len := 2; s_cap := 2 |}
              (mkError ErrorCodeInvalidTag "third" INil))
    as (h' & s' & Hrun & _ & _ & _ & _ & Hold & _).
  - split; cbn; [lia | intros; split; [lia | reflexivity]].
  - cbn. lia.
  - exists h', s'. split; [exact Hrun | exact Hold].
Defined.

Lemma append_keeps_earlier_slices_witness :
  elements (slice_append S [[None; None]] {| s_array := 0; s_len := 1; s_cap := 2 |}
              (Some (Foreign (Ret "EOF")))).1
           {| s_array := 0; s_len := 1; s_cap := 2 |}
  = [None].
Proof.
  apply (append_keeps_earlier_slices S [[None; None]]
           {| s_array := 0; s_len := 1; s_cap := 2 |}
           {| s_array := 0; s_len := 1; s_cap := 2 |}).
  - split; cbn; [lia | intros; split; [lia | reflexivity]].
  - split; cbn; [lia | intros; split; [lia | reflexivity]].
  - intros _. cbn. lia.
Defined.
